(** * Character-level RNN walkthrough: the data pipeline and the sampling loop

    A shallow embedding of the notebook "Building Character Level RNN model":
    the vocabulary dictionaries [int2char] / [char2int], the padding loop,
    the input / target shift, [one_hot_encode], the [Model.forward] pass,
    [predict] and [sample].

    Python integers are [Z]; Python lists and numpy arrays are Rocq lists,
    indexed through [getitem] / [setitem3], which implement Python's index
    rule (a negative index counts from the end, anything else out of range
    raises [IndexError]); dictionaries are stdpp [gmap]s whose missing key
    raises [KeyError]; exceptions are the [Raise] results of a small error
    monad.  A [str] is a list of [ascii] characters (the model covers ASCII
    text).  The float32 cells of the feature tensor only ever hold 0.0 and
    1.0 and are modelled by the integers 0 and 1; the scalars computed by the
    network itself are kept abstract. *)

From Stdlib Require Import ZArith Ascii String.
From stdpp Require Import base decidable option list list_numbers gmap strings fin_maps.
From Equations Require Import Equations.

Set Default Proof Using "Type".

(** ** The Python fragment the notebook runs on *)

Module Py.

Inductive exn : Type := IndexError | KeyError | ValueError | RuntimeError.

Inductive result (A : Type) : Type :=
| Ok (a : A)
| Raise (e : exn).
Global Arguments Ok {A} a.
Global Arguments Raise {A} e.

Global Instance result_ret : MRet result := λ A a, Ok a.
Global Instance result_bind : MBind result := λ A B f m,
  match m with Ok a => f a | Raise e => Raise e end.

Global Instance exn_eq_dec : EqDecision exn.
Proof. solve_decision. Defined.

(** [range(n)]: empty for [n <= 0]. *)
Definition range (n : Z) : list Z := seqZ 0 n.

(** [for i in l: s = body(i, s)], stopping at the first exception. *)
Fixpoint for_each {St : Type} (l : list Z) (body : Z → St → result St) (s : St)
  : result St :=
  match l with
  | [] => Ok s
  | i :: l' => s' ← body i s; for_each l' body s'
  end.

(** The position an index [i] denotes in a sequence of length [n]. *)
Definition norm_index (n : nat) (i : Z) : result nat :=
  if decide (0 ≤ i < Z.of_nat n)%Z then Ok (Z.to_nat i)
  else if decide (- Z.of_nat n ≤ i < 0)%Z then Ok (Z.to_nat (Z.of_nat n + i))
  else Raise IndexError.

(** [l[i]] *)
Definition getitem {A : Type} (l : list A) (i : Z) : result A :=
  j ← norm_index (length l) i;
  match l !! j with
  | Some x => Ok x
  | None => Raise IndexError
  end.

(** [d[k]] on a dictionary *)
Definition dict_getitem `{Countable K} {V : Type} (d : gmap K V) (k : K)
  : result V :=
  match d !! k with
  | Some v => Ok v
  | None => Raise KeyError
  end.

(** [dict(pairs)]: a later pair overwrites an earlier one with its key. *)
Definition dict `{Countable K} {V : Type} (pairs : list (K * V)) : gmap K V :=
  list_to_map (reverse pairs).

(** [enumerate(l)] *)
Definition enumerate {A : Type} (l : list A) : list (Z * A) :=
  zip (seqZ 0 (Z.of_nat (length l))) l.

(** [d.items()] *)
Definition items `{Countable K} {V : Type} (d : gmap K V) : list (K * V) :=
  map_to_list d.

(** [len(x)] as a Python integer *)
Definition len {A : Type} (l : list A) : Z := Z.of_nat (length l).

End Py.
Export Py.

(** ** numpy arrays of rank three *)

Abbreviation tensor3 := (list (list (list Z))).

(** [np.zeros((b, s, d))]: a negative dimension is a [ValueError]. *)
Definition np_zeros3 (b s d : Z) : result tensor3 :=
  if decide (b < 0 ∨ s < 0 ∨ d < 0)%Z then Raise ValueError
  else Ok (replicate (Z.to_nat b)
             (replicate (Z.to_nat s) (replicate (Z.to_nat d) 0%Z))).

(** [features[i, u, k] = v] *)
Definition setitem3 (features : tensor3) (i u k : Z) (v : Z) : result tensor3 :=
  i' ← norm_index (length features) i;
  match features !! i' with
  | None => Raise IndexError
  | Some plane =>
      u' ← norm_index (length plane) u;
      match plane !! u' with
      | None => Raise IndexError
      | Some slice =>
          k' ← norm_index (length slice) k;
          Ok (<[i' := <[u' := <[k' := v]> slice]> plane]> features)
      end
  end.

(** [features.shape == (b, s, d)] *)
Definition shape3 (features : tensor3) (b s d : nat) : Prop :=
  length features = b ∧
  Forall (λ plane, length plane = s ∧ Forall (λ slice, length slice = d) plane)
         features.

(** ** [one_hot_encode] *)

Definition one_hot_encode (sequence : list (list Z))
    (dict_size seq_len batch_size : Z) : result tensor3 :=
  features ← np_zeros3 batch_size seq_len dict_size;
  for_each (range batch_size) (λ i features,
    for_each (range seq_len) (λ u features,
      row ← getitem sequence i;
      k ← getitem row u;
      setitem3 features i u k 1%Z) features) features.


(** ** Strings *)

(** A Python [str]: its characters in order. *)
Abbreviation str := (list ascii).

(** A string literal of the notebook. *)
Definition lit (s : string) : str := list_ascii_of_string s.

(** [c.lower()] on an ASCII character: 'A'..'Z' move to 'a'..'z'. *)
Definition lower_char (c : ascii) : ascii :=
  let n := nat_of_ascii c in
  if decide (65 ≤ n ≤ 90) then ascii_of_nat (n + 32) else c.

(** [s.lower()] *)
Definition lower (s : str) : str := lower_char <$> s.

(** ["".join(text)] *)
Definition join (text : list str) : str := concat text.

(** [s[:-1]] and [s[1:]] *)
Definition slice_to_m1 {A : Type} (s : list A) : list A := take (length s - 1) s.
Definition slice_from_1 {A : Type} (s : list A) : list A := drop 1 s.

(** [l[i] = x] on a Python list *)
Definition setitem {A : Type} (l : list A) (i : Z) (x : A) : result (list A) :=
  j ← norm_index (length l) i;
  Ok (<[j := x]> l).

(** [[f(x) for x in l]], stopping at the first exception. *)
Fixpoint comprehension {A B : Type} (f : A → result B) (l : list A)
  : result (list B) :=
  match l with
  | [] => Ok []
  | x :: l' => y ← f x; ys ← comprehension f l'; Ok (y :: ys)
  end.

(** ** The vocabulary: [chars], [int2char], [char2int] *)

(** [chars = set("".join(text))] *)
Definition chars_of (text : list str) : gset ascii := list_to_set (join text).

(** Python does not fix the order in which a set is iterated: [order] is one
    of the possible iteration orders of the set [X] when it lists every
    element of [X] exactly once. *)
Definition iteration_order (X : gset ascii) (order : list ascii) : Prop :=
  NoDup order ∧ list_to_set order = X.

Global Instance iteration_order_dec X order : Decision (iteration_order X order).
Proof. unfold iteration_order. apply _. Defined.

Record Vocabulary : Type := {
  int2char : gmap Z ascii;
  char2int : gmap ascii Z;
}.

(** [int2char = dict(enumerate(chars))], with [chars] iterated in [order];
    [char2int = {char: ind for ind, char in int2char.items()}]. *)
Definition build_vocabulary (order : list ascii) : Vocabulary :=
  let int2char := dict (enumerate order) in
  let char2int := dict ((λ '(ind, char), (char, ind)) <$> items int2char) in
  {| int2char := int2char; char2int := char2int |}.

(** [dict_size = len(char2int)] *)
Definition dict_size (v : Vocabulary) : Z := Z.of_nat (size (char2int v)).

(** ** Padding *)

(** [max(text, key=len)]: the first string of maximal length. *)
Fixpoint max_by_len_from (best : str) (l : list str) : str :=
  match l with
  | [] => best
  | s :: l' =>
      if decide (len best < len s)%Z then max_by_len_from s l'
      else max_by_len_from best l'
  end.

Definition max_by_len (text : list str) : result str :=
  match text with
  | [] => Raise ValueError
  | s :: l => Ok (max_by_len_from s l)
  end.

(** [maxlen = len(max(text, key=len))] *)
Definition maxlen_of (text : list str) : result Z :=
  longest ← max_by_len text;
  Ok (len longest).

(** [while len(s) < maxlen: s += " "], the loop run on [text[i]]. *)
Equations? pad_while (maxlen : Z) (s : str) : str
  by wf (Z.to_nat (maxlen - len s)) lt :=
pad_while maxlen s with decide (len s < maxlen)%Z := {
  | left _ := pad_while maxlen (s ++ [" "%char]);
  | right _ := s }.
Proof. unfold len in *. rewrite length_app. simpl. lia. Qed.

(** The padding loop: every [text[i]] is padded in place. *)
Definition padding (text : list str) (maxlen : Z) : result (list str) :=
  for_each (range (len text)) (λ i text,
    s ← getitem text i;
    setitem text i (pad_while maxlen s)) text.

(** ** Input and target sequences *)

(** The loop that fills [input_seq] and [target_seq]; its [print] reads
    [input_seq[i]] and [target_seq[i]] back. *)
Definition make_sequences (text : list str) : result (list str * list str) :=
  for_each (range (len text)) (λ i '(input_seq, target_seq),
    s ← getitem text i;
    let input_seq := input_seq ++ [slice_to_m1 s] in
    s ← getitem text i;
    let target_seq := target_seq ++ [slice_from_1 s] in
    _ ← getitem input_seq i;
    _ ← getitem target_seq i;
    Ok (input_seq, target_seq)) ([], []).

(** [input_seq[i] = [char2int[character] for character in input_seq[i]]] and
    the same for [target_seq[i]], for every [i]; the state holds the rows
    already converted. *)
Definition encode_sequences (v : Vocabulary) (text input_seq target_seq : list str)
  : result (list (list Z) * list (list Z)) :=
  for_each (range (len text)) (λ i '(inputs, targets),
    s ← getitem input_seq i;
    input_i ← comprehension (dict_getitem (char2int v)) s;
    s ← getitem target_seq i;
    target_i ← comprehension (dict_getitem (char2int v)) s;
    Ok (inputs ++ [input_i], targets ++ [target_i])) ([], []).

(** What the preprocessing cells leave in the notebook's globals. *)
Record Prepared : Type := {
  p_text : list str;
  p_maxlen : Z;
  p_target_seq : list (list Z);
  p_dict_size : Z;
  p_seq_len : Z;
  p_batch_size : Z;
  p_input_seq : tensor3;
}.

(** The preprocessing cells, in the order of the notebook, for the corpus
    [text] and the iteration order [order] of its character set. *)
Definition preprocess (text : list str) (order : list ascii) : result Prepared :=
  let v := build_vocabulary order in
  maxlen ← maxlen_of text;
  text ← padding text maxlen;
  '(input_seq, target_seq) ← make_sequences text;
  '(input_seq, target_seq) ← encode_sequences v text input_seq target_seq;
  let dict_size := dict_size v in
  let seq_len := (maxlen - 1)%Z in
  let batch_size := len text in
  input_seq ← one_hot_encode input_seq dict_size seq_len batch_size;
  Ok {| p_text := text; p_maxlen := maxlen; p_target_seq := target_seq;
        p_dict_size := dict_size; p_seq_len := seq_len;
        p_batch_size := batch_size; p_input_seq := input_seq |}.

(** The corpus of the notebook and the iteration order its output shows. *)
Definition notebook_text : list str :=
  [lit "hey how are you"; lit "good i am fine"; lit "have a nice day"].

Definition notebook_order : list ascii := lit "fwudochmevirnayg ".

(** ** The network, [predict] and [sample] *)

Section Predictor.

(** What torch computes is kept abstract: the scalars of a tensor, the
    hidden vector the recurrent layer emits per time step, the hidden-state
    tensor, and the library operations the notebook calls on them. *)
Context {scalar vec hidden : Type}.
(** [torch.zeros(n_layers, batch_size, hidden_dim)] *)
Context (torch_zeros : Z → Z → Z → hidden).
(** [nn.functional.softmax(row, dim=0)] *)
Context (softmax : list scalar → list scalar).
(** [torch.max(prob, dim=0)[1].item()] *)
Context (torch_max_index : list scalar → result Z).

(** An instance of [Model]: its two parameters, the mode flag of
    [nn.Module], the recurrent layer [self.rnn] (batch first: one list of
    hidden vectors per batch element) and the linear layer [self.fc],
    applied to each row. *)
Record Model : Type := {
  hidden_dim : Z;
  n_layers : Z;
  training : bool;
  rnn : tensor3 → hidden → result (list (list vec) * hidden);
  fc : vec → list scalar;
}.

(** [model.eval()] *)
Definition eval (model : Model) : Model :=
  {| hidden_dim := hidden_dim model; n_layers := n_layers model;
     training := false; rnn := rnn model; fc := fc model |}.

Definition init_hidden (self : Model) (batch_size : Z) : hidden :=
  torch_zeros (n_layers self) batch_size (hidden_dim self).

(** [out.contiguous().view(-1, self.hidden_dim)] lays the time steps of all
    batch elements out as the rows of one matrix. *)
Definition forward (self : Model) (x : tensor3)
  : result (list (list scalar) * hidden) :=
  let batch_size := len x in
  let hidden := init_hidden self batch_size in
  '(out, hidden) ← rnn self x hidden;
  let out := concat out in
  let out := fc self <$> out in
  Ok (out, hidden).

(** [predict(model, character)], with the notebook's globals [char2int],
    [int2char] and [dict_size] taken from the vocabulary [v]. *)
Definition predict (v : Vocabulary) (model : Model) (character : list ascii)
  : result (ascii * hidden) :=
  codes ← comprehension (dict_getitem (char2int v)) character;
  let character := [codes] in
  character ← one_hot_encode character (dict_size v) (len codes) 1;
  '(out, hidden) ← forward model character;
  last ← getitem out (-1);
  let prob := softmax last in
  char_ind ← torch_max_index prob;
  char ← dict_getitem (int2char v) char_ind;
  Ok (char, hidden).

(** The body of the loop of [sample]: [char, h = predict(model, chars)],
    then [chars.append(char)]. *)
Definition sample_step (v : Vocabulary) (model : Model) (ii : Z) (chars : list ascii)
  : result (list ascii) :=
  '(char, h) ← predict v model chars;
  Ok (chars ++ [char]).

(** [sample(model, out_len, start)]; [chars] is a list of one-character
    strings, so ["".join(chars)] is the list itself. *)
Definition sample (v : Vocabulary) (model : Model) (out_len : Z) (start : str)
  : result str :=
  let model := eval model in
  let start := lower start in
  let chars := start in
  let size := (out_len - len chars)%Z in
  chars ← for_each (range size) (sample_step v model) chars;
  Ok chars.

End Predictor.

Global Arguments Model : clear implicits.

(** A small network to run [predict] and [sample] on, built like the
    notebook's [Model(input_size=dict_size, output_size=dict_size, ...)]:
    integer scalars, a recurrent layer that hands the one-hot rows through
    and refuses an empty sequence, a linear layer that cuts or fills a row
    to [output_size] entries, the identity for [softmax], and the maximum
    taken at its first position. *)
Fixpoint first_max_from (best : Z) (best_ind ind : Z) (l : list Z) : Z :=
  match l with
  | [] => best_ind
  | x :: l' =>
      if decide (best < x)%Z then first_max_from x ind (ind + 1)%Z l'
      else first_max_from best best_ind (ind + 1)%Z l'
  end.

Definition first_max_index (l : list Z) : result Z :=
  match l with
  | [] => Raise RuntimeError
  | x :: l' => Ok (first_max_from x 0 1 l')
  end.

Definition echo_rnn (x : tensor3) (h : unit)
  : result (list (list (list Z)) * unit) :=
  if decide (Forall (λ steps, steps ≠ []) x) then Ok (x, h)
  else Raise RuntimeError.

Definition echo_model (output_size : Z) : Model Z (list Z) unit :=
  {| hidden_dim := 12; n_layers := 1; training := true;
     rnn := echo_rnn;
     fc := λ row, resize (Z.to_nat output_size) 0%Z row |}.

Definition echo_predict (v : Vocabulary) :=
  predict (λ _ _ _, ()) (λ row, row) first_max_index v (echo_model (dict_size v)).

Definition echo_sample (v : Vocabulary) :=
  sample (λ _ _ _, ()) (λ row, row) first_max_index v (echo_model (dict_size v)).

(** ** Vocabulary of the statements below *)

(** The position an in-range index selects in a sequence of length [n]. *)
Definition wrap_index (n : nat) (i : Z) : nat :=
  if decide (0 ≤ i)%Z then Z.to_nat i else Z.to_nat (Z.of_nat n + i).

(** The slice of width [d] that is 1 at the position [k] selects, 0 elsewhere. *)
Definition one_hot (d : nat) (k : Z) : list Z :=
  <[wrap_index d k := 1%Z]> (replicate d 0%Z).

(** Exactly one entry of [slice] is 1 and every other entry is 0. *)
Definition is_one_hot (slice : list Z) : Prop :=
  length (filter (λ x, x = 1%Z) slice) = 1 ∧
  Forall (λ x, x = 0%Z ∨ x = 1%Z) slice.

(** The indices of a slice of width [d], and the indices numpy accepts for
    it: a negative index down to [-d] counts from the end. *)
Definition in_range (d : nat) (k : Z) : Prop := (0 ≤ k < Z.of_nat d)%Z.
Definition in_wrap_range (d : nat) (k : Z) : Prop :=
  (- Z.of_nat d ≤ k < Z.of_nat d)%Z.

Global Instance in_range_dec d k : Decision (in_range d k).
Proof. unfold in_range. apply _. Defined.
Global Instance in_wrap_range_dec d k : Decision (in_wrap_range d k).
Proof. unfold in_wrap_range. apply _. Defined.

(** The plane [one_hot_encode] leaves for a row of indices: one slice per
    time step read. *)
Definition encode_row (d s : nat) (row : list Z) : list (list Z) :=
  one_hot d <$> take s row.

(** [char2int[c]] and [int2char[i]], under the names the specification
    gives them. *)
Definition encode_index (v : Vocabulary) (c : ascii) : result Z :=
  dict_getitem (char2int v) c.
Definition decode (v : Vocabulary) (i : Z) : result ascii :=
  dict_getitem (int2char v) i.

(** A string filled up with spaces to [maxlen] characters; a string that
    has [maxlen] characters or more is left as it is. *)
Definition pad_to (maxlen : Z) (s : str) : str :=
  s ++ replicate (Z.to_nat (maxlen - len s)) " "%char.

(** The index of a character of the vocabulary. *)
Definition code_of (v : Vocabulary) (c : ascii) : Z := default 0%Z (char2int v !! c).
Definition codes_of (v : Vocabulary) (s : str) : list Z := code_of v <$> s.

(** What the statements about [predict] and [sample] take from torch.
    [softmax] keeps the length of a row, and the index of the maximum of a
    non-empty row is a position of the row. *)
Definition torch_contract {scalar : Type} (softmax : list scalar → list scalar)
    (torch_max_index : list scalar → result Z) : Prop :=
  (∀ row, length (softmax row) = length row) ∧
  (∀ row, row ≠ [] → ∃ k, torch_max_index row = Ok k ∧ (0 ≤ k < len row)%Z).

(** Whenever the recurrent layer returns, it has one hidden vector per time
    step of each batch element. *)
Definition rnn_keeps_steps {scalar vec hidden : Type} (model : Model scalar vec hidden)
  : Prop :=
  ∀ x h out h', rnn model x h = Ok (out, h') →
    Forall2 (λ o steps, length o = length steps) out x.

(** A model instantiated as in the notebook,
    [Model(input_size=dict_size, output_size=dict_size, ...)]: the
    recurrent layer runs on one batch element of at least one time step of
    width [dict_size], and the linear layer has [dict_size] outputs. *)
Definition model_contract {scalar vec hidden : Type} (v : Vocabulary)
    (model : Model scalar vec hidden) : Prop :=
  (∀ x h n, 0 < n → shape3 x 1 n (Z.to_nat (dict_size v)) →
     ∃ out h', rnn model x h = Ok (out, h')) ∧
  rnn_keeps_steps model ∧
  (∀ row, length (fc model row) = Z.to_nat (dict_size v)).

(** A character is in the vocabulary when [char2int] has it as a key. *)
Definition in_vocabulary (v : Vocabulary) (c : ascii) : Prop :=
  is_Some (char2int v !! c).

Global Instance in_vocabulary_dec v c : Decision (in_vocabulary v c).
Proof. unfold in_vocabulary. apply _. Defined.

(** What the preprocessing cells leave behind when they return, written
    out: the padded sentences, the indices of the target sequences and the
    one-hot planes of the input sequences. *)
Definition prepared_of (text : list str) (order : list ascii) (maxlen : Z) : Prepared :=
  let v := build_vocabulary order in
  let padded := pad_to maxlen <$> text in
  {| p_text := padded;
     p_maxlen := maxlen;
     p_target_seq := codes_of v <$> (slice_from_1 <$> padded);
     p_dict_size := dict_size v;
     p_seq_len := (maxlen - 1)%Z;
     p_batch_size := len padded;
     p_input_seq :=
       encode_row (length order) (Z.to_nat (maxlen - 1))
         <$> (codes_of v <$> (slice_to_m1 <$> padded)) |}.

(** Every character the integer encoding looks up, for sentences padded
    to [maxlen], is in the vocabulary. *)
Definition sequences_in_vocabulary (v : Vocabulary) (text : list str) (maxlen : Z)
  : Prop :=
  Forall (Forall (in_vocabulary v)) (slice_to_m1 <$> (pad_to maxlen <$> text)) ∧
  Forall (Forall (in_vocabulary v)) (slice_from_1 <$> (pad_to maxlen <$> text)).

Global Instance sequences_in_vocabulary_dec v text maxlen :
  Decision (sequences_in_vocabulary v text maxlen).
Proof. unfold sequences_in_vocabulary. apply _. Defined.

(** * Properties *)

(** ** Loop rules *)

Section LoopRules.
Context {St : Type}.
Implicit Types (body : Z → St → result St) (s : St).

(** Total correctness of a counted loop: an invariant indexed by the number
    of iterations done, which every iteration re-establishes without
    raising. *)
Lemma for_each_seqZ_total (I : nat → St → Prop) body n : ∀ a s,
  I a s →
  (∀ j s, a ≤ j < a + n → I j s →
     ∃ s', body (Z.of_nat j) s = Ok s' ∧ I (S j) s') →
  ∃ s', for_each (seqZ (Z.of_nat a) (Z.of_nat n)) body s = Ok s' ∧ I (a + n) s'.
Proof.
  induction n as [|n IH]; intros a s HI Hstep.
  - exists s. rewrite Nat.add_0_r. by rewrite seqZ_nil.
  - rewrite seqZ_cons by lia. simpl.
    destruct (Hstep a s) as (s1 & Hb & HI1); [lia | done |].
    rewrite Hb. simpl.
    replace (Z.succ (Z.of_nat a)) with (Z.of_nat (S a)) by lia.
    replace (Z.pred (Z.of_nat (S n))) with (Z.of_nat n) by lia.
    destruct (IH (S a) s1 HI1) as (s' & Hs' & HI').
    { intros j s2 ??. apply Hstep; [lia | done]. }
    exists s'. split; [done |]. by replace (a + S n) with (S a + n) by lia.
Qed.

Lemma for_range_total (I : nat → St → Prop) body (n : nat) s :
  I 0 s →
  (∀ j s, j < n → I j s →
     ∃ s', body (Z.of_nat j) s = Ok s' ∧ I (S j) s') →
  ∃ s', for_each (range (Z.of_nat n)) body s = Ok s' ∧ I n s'.
Proof.
  intros HI Hstep.
  destruct (for_each_seqZ_total I body n 0 s HI) as (s' & ? & ?); [|by exists s'].
  intros j s1 ??. apply Hstep; [lia | done].
Qed.

(** What a run of a counted loop tells about its iterations, for an
    invariant that the iterations which return preserve: a run that returns
    went through every iteration, and a run that raises stopped in one. *)
Lemma for_each_seqZ_inv (I : nat → St → Prop) body n : ∀ a s,
  I a s →
  (∀ j s s', a ≤ j < a + n → I j s → body (Z.of_nat j) s = Ok s' →
     I (S j) s') →
  match for_each (seqZ (Z.of_nat a) (Z.of_nat n)) body s with
  | Ok s' =>
      I (a + n) s' ∧
      ∀ j, a ≤ j < a + n → ∃ s1 s2, I j s1 ∧ body (Z.of_nat j) s1 = Ok s2
  | Raise e =>
      ∃ j s1, a ≤ j < a + n ∧ I j s1 ∧ body (Z.of_nat j) s1 = Raise e
  end.
Proof.
  induction n as [|n IH]; intros a s HI Hstep.
  - rewrite seqZ_nil by lia. simpl. rewrite Nat.add_0_r. split; [done | lia].
  - rewrite seqZ_cons by lia. simpl.
    replace (Z.succ (Z.of_nat a)) with (Z.of_nat (S a)) by lia.
    replace (Z.pred (Z.of_nat (S n))) with (Z.of_nat n) by lia.
    destruct (body (Z.of_nat a) s) as [s1|e] eqn:Hb; simpl.
    + assert (I (S a) s1) as HI1 by (eapply Hstep; [lia | done..]).
      specialize (IH (S a) s1 HI1).
      destruct (for_each _ body s1) as [s'|e].
      * destruct IH as [HI' Hall]; [intros ?????; eapply Hstep; [lia | done..] |].
        split; [by replace (a + S n) with (S a + n) by lia |].
        intros j Hj. destruct (decide (j = a)) as [->|]; [by eauto |].
        apply Hall. lia.
      * destruct IH as (j & s2 & ? & ? & ?);
          [intros ?????; eapply Hstep; [lia | done..] |].
        exists j, s2. split; [lia | done].
    + exists a, s. split; [lia | done].
Qed.

Lemma for_range_inv (I : nat → St → Prop) body (n : nat) s :
  I 0 s →
  (∀ j s s', j < n → I j s → body (Z.of_nat j) s = Ok s' → I (S j) s') →
  match for_each (range (Z.of_nat n)) body s with
  | Ok s' =>
      I n s' ∧ ∀ j, j < n → ∃ s1 s2, I j s1 ∧ body (Z.of_nat j) s1 = Ok s2
  | Raise e => ∃ j s1, j < n ∧ I j s1 ∧ body (Z.of_nat j) s1 = Raise e
  end.
Proof.
  intros HI Hstep.
  pose proof (for_each_seqZ_inv I body n 0 s HI) as H. simpl in H.
  unfold range. destruct (for_each _ body s) as [s'|e].
  - destruct H as [? Hall]; [intros ?????; eapply Hstep; [lia | done..] |].
    split; [done |]. intros j ?. apply Hall. lia.
  - destruct H as (j & s1 & ? & ? & ?);
      [intros ?????; eapply Hstep; [lia | done..] |].
    exists j, s1. split; [lia | done].
Qed.

(** [range] of a non-positive bound runs no iteration. *)
Lemma for_range_nonpos body (n : Z) s : (n ≤ 0)%Z → for_each (range n) body s = Ok s.
Proof. intros. unfold range. by rewrite seqZ_nil. Qed.

End LoopRules.

(** ** Indexing *)

Lemma bind_Ok {A B : Type} (f : A → result B) (a : A) : (Ok a ≫= f) = f a.
Proof. reflexivity. Qed.

Lemma bind_Ok_inv {A B : Type} (f : A → result B) (m : result A) (b : B) :
  (m ≫= f) = Ok b → ∃ a, m = Ok a ∧ f a = Ok b.
Proof. destruct m as [a|e]; [by exists a | done]. Qed.

Lemma bind_Raise_inv {A B : Type} (f : A → result B) (m : result A) (e : exn) :
  (m ≫= f) = Raise e → m = Raise e ∨ ∃ a, m = Ok a ∧ f a = Raise e.
Proof.
  destruct m as [a|e']; simpl; intros; [right; by exists a | left; congruence].
Qed.

Lemma norm_index_nat (n j : nat) : j < n → norm_index n (Z.of_nat j) = Ok j.
Proof.
  intros. unfold norm_index. rewrite decide_True by lia. by rewrite Nat2Z.id.
Qed.

Lemma norm_index_wrap (n : nat) (i : Z) :
  in_wrap_range n i → norm_index n i = Ok (wrap_index n i) ∧ wrap_index n i < n.
Proof.
  unfold in_wrap_range, norm_index, wrap_index. intros.
  repeat case_decide; (split; [done || lia | lia]).
Qed.

Lemma norm_index_Ok (n : nat) (i : Z) (j : nat) :
  norm_index n i = Ok j → in_wrap_range n i ∧ j = wrap_index n i ∧ j < n.
Proof.
  unfold in_wrap_range, norm_index, wrap_index.
  repeat case_decide; intros [=]; subst; lia.
Qed.

Lemma norm_index_Raise (n : nat) (i : Z) (e : exn) :
  norm_index n i = Raise e → e = IndexError ∧ ¬ in_wrap_range n i.
Proof.
  unfold in_wrap_range, norm_index.
  repeat case_decide; intros [=]; subst. split; [done | lia].
Qed.

Lemma getitem_nat {A : Type} (l : list A) (j : nat) (x : A) :
  l !! j = Some x → getitem l (Z.of_nat j) = Ok x.
Proof.
  intros Hj. unfold getitem.
  rewrite norm_index_nat by (by eapply lookup_lt_Some). simpl. by rewrite Hj.
Qed.

Lemma getitem_nat_Ok {A : Type} (l : list A) (j : nat) (x : A) :
  getitem l (Z.of_nat j) = Ok x → l !! j = Some x.
Proof.
  unfold getitem. intros (j' & Hn & Hl)%bind_Ok_inv.
  apply norm_index_Ok in Hn as (_ & -> & _).
  unfold wrap_index in Hl. rewrite decide_True, Nat2Z.id in Hl by lia.
  destruct (l !! j); congruence.
Qed.

Lemma getitem_Raise {A : Type} (l : list A) (i : Z) (e : exn) :
  getitem l i = Raise e → e = IndexError.
Proof.
  unfold getitem. intros [Hn|(j & _ & Hl)]%bind_Raise_inv.
  - by apply norm_index_Raise in Hn as [-> _].
  - destruct (l !! j); congruence.
Qed.

Lemma getitem_last {A : Type} (l : list A) (x : A) : getitem (l ++ [x]) (-1) = Ok x.
Proof.
  unfold getitem, norm_index. rewrite length_app. simpl.
  rewrite decide_True by lia. simpl.
  replace (Z.to_nat (Z.of_nat (length l + 1) + -1)) with (length l + 0) by lia.
  by rewrite lookup_app_r, Nat.add_0_r, Nat.sub_diag by lia.
Qed.

Lemma dict_getitem_Some `{Countable K} {V : Type} (d : gmap K V) (k : K) (x : V) :
  d !! k = Some x → dict_getitem d k = Ok x.
Proof. unfold dict_getitem. by intros ->. Qed.


Lemma getitem_nil {A : Type} (i : Z) : getitem (@nil A) i = Raise IndexError.
Proof. unfold getitem, norm_index. simpl. by rewrite !decide_False by lia. Qed.

(** ** One-hot slices and the feature tensor *)

Lemma one_hot_length (d : nat) (k : Z) : length (one_hot d k) = d.
Proof. unfold one_hot. by rewrite length_insert, length_replicate. Qed.

Lemma filter_eq1_replicate0 (n : nat) : filter (λ x : Z, x = 1%Z) (replicate n 0%Z) = [].
Proof. induction n as [|n IH]; [done |]. simpl. by rewrite filter_cons_False. Qed.

Lemma one_hot_is_one_hot (d : nat) (k : Z) : in_wrap_range d k → is_one_hot (one_hot d k).
Proof.
  intros [_ Hk]%norm_index_wrap. unfold one_hot, is_one_hot.
  rewrite insert_replicate_lt by done. split.
  - rewrite filter_app, filter_cons_True, !filter_eq1_replicate0 by done. done.
  - apply Forall_app. split; [|apply Forall_cons; split; [by right |]];
      apply Forall_replicate; by left.
Qed.

Lemma np_zeros3_nat (b s d : nat) :
  np_zeros3 (Z.of_nat b) (Z.of_nat s) (Z.of_nat d)
  = Ok (replicate b (replicate s (replicate d 0%Z))).
Proof. unfold np_zeros3. rewrite decide_False by lia. by rewrite !Nat2Z.id. Qed.

Lemma shape3_zeros (b s d : nat) :
  shape3 (replicate b (replicate s (replicate d 0%Z))) b s d.
Proof.
  split; [by rewrite length_replicate |].
  apply Forall_replicate. split; [by rewrite length_replicate |].
  apply Forall_replicate. by rewrite length_replicate.
Qed.

Lemma shape3_lookup (F : tensor3) (b s d i u : nat) plane slice :
  shape3 F b s d → F !! i = Some plane → plane !! u = Some slice →
  length plane = s ∧ length slice = d.
Proof.
  intros [_ HF] Hi Hu.
  destruct (proj1 (Forall_lookup _ _) HF i plane Hi) as [? Hp].
  split; [done |]. by apply (proj1 (Forall_lookup _ _) Hp u slice).
Qed.

Lemma insert_fill {A : Type} (l : list A) (n i : nat) (x z : A) :
  length l = i → i < n →
  <[i := x]> (l ++ replicate (n - i) z) = (l ++ [x]) ++ replicate (n - S i) z.
Proof.
  intros <- Hn. rewrite insert_app_r_alt, Nat.sub_diag by lia.
  replace (n - length l) with (S (n - S (length l))) by lia.
  simpl. by rewrite <-app_assoc.
Qed.

Lemma setitem3_nat (F : tensor3) (i u : nat) (k v : Z) plane slice :
  F !! i = Some plane → plane !! u = Some slice →
  in_wrap_range (length slice) k →
  setitem3 F (Z.of_nat i) (Z.of_nat u) k v
  = Ok (<[i := <[u := <[wrap_index (length slice) k := v]> slice]> plane]> F).
Proof.
  intros Hi Hu [Hk _]%norm_index_wrap. unfold setitem3.
  rewrite norm_index_nat by (by eapply lookup_lt_Some). simpl. rewrite Hi.
  rewrite norm_index_nat by (by eapply lookup_lt_Some). simpl. rewrite Hu.
  by rewrite Hk.
Qed.

Lemma wrap_index_nat (n j : nat) : wrap_index n (Z.of_nat j) = j.
Proof. unfold wrap_index. rewrite decide_True by lia. apply Nat2Z.id. Qed.

Lemma setitem3_Ok (F F' : tensor3) (i u : nat) (k v : Z) :
  setitem3 F (Z.of_nat i) (Z.of_nat u) k v = Ok F' →
  ∃ plane slice, F !! i = Some plane ∧ plane !! u = Some slice ∧
    in_wrap_range (length slice) k ∧
    F' = <[i := <[u := <[wrap_index (length slice) k := v]> slice]> plane]> F.
Proof.
  unfold setitem3. intros (i' & Hi' & H)%bind_Ok_inv.
  apply norm_index_Ok in Hi' as (_ & -> & _). rewrite wrap_index_nat in H.
  destruct (F !! i) as [plane|] eqn:Hi; [|done].
  apply bind_Ok_inv in H as (u' & Hu' & H).
  apply norm_index_Ok in Hu' as (_ & -> & _). rewrite wrap_index_nat in H.
  destruct (plane !! u) as [slice|] eqn:Hu; [|done].
  apply bind_Ok_inv in H as (k' & Hk' & H).
  apply norm_index_Ok in Hk' as (? & -> & _).
  exists plane, slice. repeat split; try done; [apply H0.. | congruence].
Qed.

Lemma setitem3_Raise (F : tensor3) (i u k v : Z) (e : exn) :
  setitem3 F i u k v = Raise e → e = IndexError.
Proof.
  unfold setitem3. intros [Hn|(i' & _ & H)]%bind_Raise_inv.
  { by apply norm_index_Raise in Hn as [-> _]. }
  destruct (F !! i') as [plane|]; [|congruence].
  apply bind_Raise_inv in H as [Hn|(u' & _ & H)].
  { by apply norm_index_Raise in Hn as [-> _]. }
  destruct (plane !! u') as [slice|]; [|congruence].
  apply bind_Raise_inv in H as [Hn|(k' & _ & H)]; [|done].
  by apply norm_index_Raise in Hn as [-> _].
Qed.

Lemma shape3_insert (F : tensor3) (b s d i u j : nat) (v : Z) plane slice :
  shape3 F b s d → F !! i = Some plane → plane !! u = Some slice →
  shape3 (<[i := <[u := <[j := v]> slice]> plane]> F) b s d.
Proof.
  intros HF Hi Hu. destruct (shape3_lookup _ _ _ _ _ _ _ _ HF Hi Hu) as [Hs Hd].
  destruct HF as [Hb HF]. split; [by rewrite length_insert |].
  apply Forall_insert; [done |].
  destruct (proj1 (Forall_lookup _ _) HF i plane Hi) as [_ Hp].
  split; [by rewrite length_insert |].
  apply Forall_insert; [done |]. by rewrite length_insert.
Qed.

(** One run of the inner loop of [one_hot_encode] fills plane [i] with the
    slices of the row it reads. *)
Lemma one_hot_encode_row (sequence : list (list Z)) (d s i : nat)
    (row : list Z) (F : tensor3) :
  sequence !! i = Some row → s ≤ length row →
  Forall (in_wrap_range d) (take s row) →
  F !! i = Some (replicate s (replicate d 0%Z)) →
  for_each (range (Z.of_nat s)) (λ u features,
      row ← getitem sequence (Z.of_nat i);
      k ← getitem row u;
      setitem3 features (Z.of_nat i) u k 1%Z) F
  = Ok (<[i := encode_row d s row]> F).
Proof.
  intros Hrow Hs Hk HF.
  set (I := λ (u : nat) (F' : tensor3),
    F' = <[i := (one_hot d <$> take u row) ++ replicate (s - u) (replicate d 0%Z)]> F).
  destruct (for_range_total I
    (λ u features, row ← getitem sequence (Z.of_nat i); k ← getitem row u;
                   setitem3 features (Z.of_nat i) u k 1%Z) s F) as (F' & -> & HF').
  - unfold I. simpl. rewrite Nat.sub_0_r. by rewrite list_insert_id.
  - intros u F1 Hu ->.
    destruct (lookup_lt_is_Some_2 row u) as [k Hku]; [lia |].
    assert (in_wrap_range d k) as Hkd.
    { apply (proj1 (Forall_lookup _ _) Hk u). by rewrite lookup_take_lt. }
    rewrite (getitem_nat _ _ _ Hrow). simpl.
    rewrite (getitem_nat _ _ _ Hku). simpl.
    set (plane := (one_hot d <$> take u row) ++ replicate (s - u) (replicate d 0%Z)).
    assert (length (one_hot d <$> take u row) = u) as Hlen
      by (rewrite length_fmap, length_take_le; lia).
    assert (plane !! u = Some (replicate d 0%Z)) as Hpu.
    { unfold plane. rewrite lookup_app_r, Hlen, Nat.sub_diag by lia.
      apply lookup_replicate_2. lia. }
    erewrite setitem3_nat; [| apply list_lookup_insert_eq; by eapply lookup_lt_Some
                            | exact Hpu | by rewrite length_replicate].
    eexists. split; [done |]. unfold I.
    rewrite list_insert_insert_eq. f_equal. rewrite length_replicate.
    unfold plane. rewrite insert_fill by (done || lia).
    by rewrite (take_S_r _ _ _ Hku), fmap_app.
  - rewrite HF'. unfold encode_row. by rewrite Nat.sub_diag, app_nil_r.
Qed.

(** On rows that are long enough and hold indices numpy accepts,
    [one_hot_encode] returns the tensor of the rows' one-hot slices. *)
Lemma one_hot_encode_ok (sequence : list (list Z)) (d s b : nat) :
  b ≤ length sequence →
  Forall (λ row, s ≤ length row ∧ Forall (in_wrap_range d) (take s row))
         (take b sequence) →
  one_hot_encode sequence (Z.of_nat d) (Z.of_nat s) (Z.of_nat b)
  = Ok (encode_row d s <$> take b sequence).
Proof.
  intros Hb Hrows. unfold one_hot_encode. rewrite np_zeros3_nat. simpl.
  set (zero_plane := replicate s (replicate d 0%Z)).
  set (I := λ (i : nat) (F : tensor3),
    F = (encode_row d s <$> take i sequence) ++ replicate (b - i) zero_plane).
  destruct (for_range_total I
    (λ i features, for_each (range (Z.of_nat s)) (λ u features,
       row ← getitem sequence i; k ← getitem row u;
       setitem3 features i u k 1%Z) features) b (replicate b zero_plane))
    as (F' & -> & HF').
  - unfold I. simpl. by rewrite Nat.sub_0_r.
  - intros i F Hi ->.
    destruct (lookup_lt_is_Some_2 sequence i) as [row Hrow]; [lia |].
    destruct (proj1 (Forall_lookup _ _) Hrows i row) as [Hs Hk];
      [by rewrite lookup_take_lt |].
    assert (length (encode_row d s <$> take i sequence) = i) as Hlen
      by (rewrite length_fmap, length_take_le; lia).
    erewrite one_hot_encode_row; [| done.. |].
    + eexists. split; [done |]. unfold I.
      rewrite insert_fill by (done || lia).
      by rewrite (take_S_r _ _ _ Hrow), fmap_app.
    + rewrite lookup_app_r, Hlen, Nat.sub_diag by lia.
      apply lookup_replicate_2. lia.
  - rewrite HF'. by rewrite Nat.sub_diag, app_nil_r.
Qed.

(** What one assignment [features[i, u, sequence[i][u]] = 1] needs in order
    to return, and the only exception it raises. *)
Lemma one_hot_step_Ok (sequence : list (list Z)) (b s d i u : nat) (F F' : tensor3) :
  shape3 F b s d →
  (row ← getitem sequence (Z.of_nat i); k ← getitem row (Z.of_nat u);
   setitem3 F (Z.of_nat i) (Z.of_nat u) k 1%Z) = Ok F' →
  shape3 F' b s d ∧
  ∃ row k, sequence !! i = Some row ∧ row !! u = Some k ∧ in_wrap_range d k.
Proof.
  intros HF (row & Hrow%getitem_nat_Ok & H)%bind_Ok_inv.
  apply bind_Ok_inv in H as (k & Hk%getitem_nat_Ok & H).
  apply setitem3_Ok in H as (plane & slice & Hi & Hu & Hkd & ->).
  destruct (shape3_lookup _ _ _ _ _ _ _ _ HF Hi Hu) as [_ Hd].
  split; [by apply shape3_insert |].
  exists row, k. by rewrite <-Hd.
Qed.

Lemma one_hot_step_Raise (sequence : list (list Z)) (i u : Z) (F : tensor3) (e : exn) :
  (row ← getitem sequence i; k ← getitem row u; setitem3 F i u k 1%Z) = Raise e →
  e = IndexError.
Proof.
  intros [H|(row & _ & H)]%bind_Raise_inv; [by eapply getitem_Raise |].
  apply bind_Raise_inv in H as [H|(k & _ & H)]; [by eapply getitem_Raise |].
  by eapply setitem3_Raise.
Qed.

(** Every run of [one_hot_encode] on non-negative dimensions: a run that
    returns has read an index numpy accepts at every position of the
    [batch_size] by [seq_len] grid, and a run that raises raises
    [IndexError]. *)
Lemma one_hot_encode_run (sequence : list (list Z)) (d s b : nat) :
  match one_hot_encode sequence (Z.of_nat d) (Z.of_nat s) (Z.of_nat b) with
  | Ok F =>
      shape3 F b s d ∧
      ∀ i u, i < b → u < s →
        ∃ row k, sequence !! i = Some row ∧ row !! u = Some k ∧ in_wrap_range d k
  | Raise e => e = IndexError
  end.
Proof.
  unfold one_hot_encode. rewrite np_zeros3_nat. simpl.
  set (inner := λ (i : Z) (features : tensor3),
    for_each (range (Z.of_nat s)) (λ u features,
      row ← getitem sequence i; k ← getitem row u;
      setitem3 features i u k 1%Z) features).
  assert (∀ i F, shape3 F b s d →
    match inner (Z.of_nat i) F with
    | Ok F' => shape3 F' b s d ∧
        ∀ u, u < s →
          ∃ row k, sequence !! i = Some row ∧ row !! u = Some k ∧ in_wrap_range d k
    | Raise e => e = IndexError
    end) as Hinner.
  { intros i F HF. unfold inner.
    pose proof (for_range_inv (λ _ F, shape3 F b s d)
      (λ u features, row ← getitem sequence (Z.of_nat i); k ← getitem row u;
                     setitem3 features (Z.of_nat i) u k 1%Z) s F HF) as H.
    destruct (for_each _ _ F) as [F'|e].
    - destruct H as [HF' Hall].
      { intros u F1 F2 _ HF1 Hb. by eapply one_hot_step_Ok. }
      split; [done |]. intros u Hu.
      destruct (Hall u Hu) as (F1 & F2 & HF1 & Hb).
      by eapply one_hot_step_Ok.
    - destruct H as (u & F1 & _ & _ & Hb).
      { intros u F1 F2 _ HF1 Hb. by eapply one_hot_step_Ok. }
      by eapply one_hot_step_Raise. }
  pose proof (for_range_inv (λ _ F, shape3 F b s d) inner b
    (replicate b (replicate s (replicate d 0%Z))) (shape3_zeros b s d)) as H.
  destruct (for_each _ inner _) as [F'|e].
  - destruct H as [HF' Hall].
    { intros i F1 F2 _ HF1 Hb. specialize (Hinner i F1 HF1).
      rewrite Hb in Hinner. apply Hinner. }
    split; [done |]. intros i u Hi Hu.
    destruct (Hall i Hi) as (F1 & F2 & HF1 & Hb).
    specialize (Hinner i F1 HF1). rewrite Hb in Hinner. by apply Hinner.
  - destruct H as (i & F1 & _ & HF1 & Hb).
    { intros i F1 F2 _ HF1 Hb. specialize (Hinner i F1 HF1).
      rewrite Hb in Hinner. apply Hinner. }
    specialize (Hinner i F1 HF1). by rewrite Hb in Hinner.
Qed.

(** C2. For an input of at least [batch_size] rows of at least [seq_len]
    indices, every index in [0, vocab_size): [one_hot_encode] returns a
    tensor of shape (batch_size, seq_len, vocab_size); each of its
    (batch, time) slices has exactly one entry equal to 1 and all other
    entries 0; and the slice at (i, u) is the one-hot slice of
    [sequence[i][u]]. *)
Theorem one_hot_encode_one_hot_invariant (sequence : list (list Z))
    (vocab_size seq_len batch_size : nat) :
  batch_size ≤ length sequence →
  Forall (λ row, seq_len ≤ length row) sequence →
  Forall (Forall (in_range vocab_size)) sequence →
  ∃ features,
    one_hot_encode sequence (Z.of_nat vocab_size) (Z.of_nat seq_len)
                   (Z.of_nat batch_size) = Ok features ∧
    shape3 features batch_size seq_len vocab_size ∧
    (∀ i u plane slice,
       features !! i = Some plane → plane !! u = Some slice → is_one_hot slice) ∧
    (∀ i u row k,
       i < batch_size → u < seq_len →
       sequence !! i = Some row → row !! u = Some k →
       ∃ plane, features !! i = Some plane ∧
                plane !! u = Some (one_hot vocab_size k)).
Proof.
  intros Hb Hs Hk.
  assert (Forall (λ row, seq_len ≤ length row ∧
                         Forall (in_wrap_range vocab_size) (take seq_len row))
                 (take batch_size sequence)) as Hrows.
  { apply Forall_take, Forall_lookup. intros i row Hi. split.
    - by apply (proj1 (Forall_lookup _ _) Hs i).
    - apply Forall_take.
      eapply Forall_impl; [by apply (proj1 (Forall_lookup _ _) Hk i) |].
      unfold in_range, in_wrap_range. simpl. lia. }
  pose proof (one_hot_encode_ok sequence vocab_size seq_len batch_size Hb Hrows) as Hok.
  pose proof (one_hot_encode_run sequence vocab_size seq_len batch_size) as Hrun.
  rewrite Hok in Hrun. destruct Hrun as [Hshape _].
  eexists. split; [exact Hok |]. split; [done |]. split.
  - intros i u plane slice Hi Hu.
    apply list_lookup_fmap_Some in Hi as (row & -> & Hrow).
    apply list_lookup_fmap_Some in Hu as (k & -> & Hku).
    apply one_hot_is_one_hot.
    destruct (proj1 (Forall_lookup _ _) Hrows i row Hrow) as [_ Hin].
    by apply (proj1 (Forall_lookup _ _) Hin u).
  - intros i u row k Hi Hu Hrow Hku. exists (encode_row vocab_size seq_len row).
    split.
    + by rewrite list_lookup_fmap, lookup_take_lt, Hrow.
    + unfold encode_row. by rewrite list_lookup_fmap, lookup_take_lt, Hku.
Qed.

Lemma one_hot_encode_one_hot_invariant_witness :
  ∃ features,
    one_hot_encode [[2; 0]; [1; 1]]%Z (Z.of_nat 3) (Z.of_nat 2) (Z.of_nat 2)
      = Ok features ∧
    shape3 features 2 2 3 ∧
    (∀ i u plane slice,
       features !! i = Some plane → plane !! u = Some slice → is_one_hot slice) ∧
    (∀ i u row k,
       i < 2 → u < 2 →
       [[2; 0]; [1; 1]]%Z !! i = Some row → row !! u = Some k →
       ∃ plane, features !! i = Some plane ∧ plane !! u = Some (one_hot 3 k)).
Proof.
  apply (one_hot_encode_one_hot_invariant [[2; 0]; [1; 1]]%Z 3 2 2).
  - simpl. lia.
  - repeat constructor.
  - unfold in_range. repeat constructor; lia.
Defined.




Example one_hot_encode_ex :
  one_hot_encode [[2; 0]; [1; 1]]%Z 3 2 2
  = Ok [[[0; 0; 1]; [1; 0; 0]]; [[0; 1; 0]; [0; 1; 0]]]%Z.
Proof. reflexivity. Qed.

Example one_hot_encode_too_large_ex : one_hot_encode [[3]]%Z 3 1 1 = Raise IndexError.
Proof. reflexivity. Qed.

Example one_hot_encode_negative_dimension_ex :
  one_hot_encode [] 3 (-1) 0 = Raise ValueError.
Proof. reflexivity. Qed.

(** ** The vocabulary *)

Lemma dict_lookup `{Countable K} {V : Type} (pairs : list (K * V)) (k : K) (x : V) :
  NoDup pairs.*1 → dict pairs !! k = Some x ↔ (k, x) ∈ pairs.
Proof.
  intros Hnd. unfold dict. rewrite <-elem_of_list_to_map, elem_of_reverse; [done |].
  by rewrite fmap_reverse, reverse_Permutation.
Qed.

Lemma dict_size_NoDup `{Countable K} {V : Type} (pairs : list (K * V)) :
  NoDup pairs.*1 → size (dict pairs) = length pairs.
Proof.
  intros Hnd. unfold dict. rewrite map_size_list_to_map, length_reverse; [done |].
  by rewrite fmap_reverse, reverse_Permutation.
Qed.

Lemma enumerate_keys {A : Type} (l : list A) :
  (enumerate l).*1 = seqZ 0 (Z.of_nat (length l)).
Proof. unfold enumerate. apply fst_zip. rewrite length_seqZ. lia. Qed.

Lemma elem_of_enumerate {A : Type} (l : list A) (i : Z) (x : A) :
  (i, x) ∈ enumerate l ↔ (0 ≤ i)%Z ∧ l !! Z.to_nat i = Some x.
Proof.
  unfold enumerate. rewrite elem_of_lookup_zip_with. split.
  - intros (j & i' & x' & [= -> ->] & [-> ?]%lookup_seqZ & Hx).
    split; [lia |]. by rewrite Z.add_0_l, Nat2Z.id.
  - intros [Hi Hx]. exists (Z.to_nat i), i, x. split; [done |]. split; [|done].
    apply lookup_seqZ. split; [lia |].
    apply lookup_lt_Some in Hx. lia.
Qed.

Section Vocabulary.
Context (order : list ascii) (Hnd : NoDup order).
Local Abbreviation v := (build_vocabulary order).

Lemma int2char_lookup (i : Z) (c : ascii) :
  int2char v !! i = Some c ↔ (0 ≤ i)%Z ∧ order !! Z.to_nat i = Some c.
Proof.
  simpl. rewrite dict_lookup; [apply elem_of_enumerate |].
  rewrite enumerate_keys. apply NoDup_seqZ.
Qed.

Lemma int2char_inj (i j : Z) (c : ascii) :
  int2char v !! i = Some c → int2char v !! j = Some c → i = j.
Proof using Hnd.
  intros [? Hi]%int2char_lookup [? Hj]%int2char_lookup.
  pose proof (NoDup_lookup _ _ _ _ Hnd Hi Hj). lia.
Qed.

Lemma char2int_keys_NoDup :
  NoDup ((λ '(ind, char), (char, ind)) <$> items (int2char v)).*1.
Proof using Hnd.
  rewrite <-list_fmap_compose. apply NoDup_fmap_2_strong; [|apply NoDup_map_to_list].
  intros [i c] [j c'] Hi Hj. simpl. intros <-.
  apply elem_of_map_to_list in Hi, Hj. f_equal. by eapply int2char_inj.
Qed.

(** The two dictionaries are inverse to each other. *)
Lemma char2int_lookup (c : ascii) (i : Z) :
  char2int v !! c = Some i ↔ int2char v !! i = Some c.
Proof using Hnd.
  change (char2int v) with (dict ((λ '(ind, char), (char, ind)) <$> items (int2char v))).
  rewrite dict_lookup by apply char2int_keys_NoDup.
  rewrite list_elem_of_fmap. unfold items. split.
  - intros ([j c'] & [= -> ->] & Hin). by apply elem_of_map_to_list.
  - intros Hi. exists (i, c). split; [done |]. by apply elem_of_map_to_list.
Qed.

Lemma vocabulary_size : dict_size v = Z.of_nat (length order).
Proof using Hnd.
  unfold dict_size. f_equal.
  change (char2int v) with (dict ((λ '(ind, char), (char, ind)) <$> items (int2char v))).
  rewrite dict_size_NoDup by apply char2int_keys_NoDup.
  rewrite length_fmap. unfold items. rewrite length_map_to_list. simpl.
  rewrite dict_size_NoDup by (rewrite enumerate_keys; apply NoDup_seqZ).
  unfold enumerate. rewrite length_zip_with, length_seqZ. lia.
Qed.

(** The indices in use are exactly those of [0, dict_size). *)
Lemma int2char_dense (i : Z) :
  is_Some (int2char v !! i) ↔ (0 ≤ i < dict_size v)%Z.
Proof using Hnd.
  rewrite vocabulary_size. split.
  - intros [c [? Hc%lookup_lt_Some]%int2char_lookup]. lia.
  - intros Hi. destruct (lookup_lt_is_Some_2 order (Z.to_nat i)) as [c Hc]; [lia |].
    exists c. apply int2char_lookup. split; [lia | done].
Qed.

Lemma char2int_in_range (c : ascii) (i : Z) :
  char2int v !! c = Some i → (0 ≤ i < dict_size v)%Z.
Proof using Hnd. intros Hc%char2int_lookup. apply int2char_dense. by eexists. Qed.

Lemma char2int_is_Some (c : ascii) : is_Some (char2int v !! c) ↔ c ∈ order.
Proof using Hnd.
  rewrite list_elem_of_lookup. split.
  - intros [i [? Hi]%char2int_lookup%int2char_lookup]. by eexists.
  - intros [j Hj]. exists (Z.of_nat j).
    apply char2int_lookup, int2char_lookup. split; [lia |]. by rewrite Nat2Z.id.
Qed.

(** A decoded index can be encoded again. *)
Lemma int2char_encodable (i : Z) (c : ascii) :
  int2char v !! i = Some c → is_Some (char2int v !! c).
Proof using Hnd. intros Hi. exists i. by apply char2int_lookup. Qed.

End Vocabulary.

Lemma iteration_order_elem_of (text : list str) (order : list ascii) (c : ascii) :
  iteration_order (chars_of text) order → c ∈ order ↔ c ∈ join text.
Proof.
  intros [_ Hset]. unfold chars_of in Hset.
  by rewrite <-(elem_of_list_to_set (C:=gset ascii) c order), Hset, elem_of_list_to_set.
Qed.

Lemma iteration_order_length (X : gset ascii) (order : list ascii) :
  iteration_order X order → length order = size X.
Proof. intros [Hnd <-]. by rewrite size_list_to_set. Qed.

(** C1. For every corpus and every order in which its character set is
    iterated, the vocabulary built is a pair of mutually inverse maps over
    the dense index range [0, |vocabulary|): decoding the index of a
    character of the corpus gives the character back, encoding the
    character of an index of the range gives the index back, the indices
    in use are exactly those of the range, the characters in use exactly
    those of the corpus, and |vocabulary| is the number of distinct
    characters. *)
Theorem vocabulary_round_trip (text : list str) (order : list ascii) :
  iteration_order (chars_of text) order →
  (∀ c, c ∈ join text →
     (encode_index (build_vocabulary order) c ≫= decode (build_vocabulary order))
     = Ok c) ∧
  (∀ i, (0 ≤ i < dict_size (build_vocabulary order))%Z →
     (decode (build_vocabulary order) i ≫= encode_index (build_vocabulary order))
     = Ok i) ∧
  (∀ c i, char2int (build_vocabulary order) !! c = Some i
          ↔ int2char (build_vocabulary order) !! i = Some c) ∧
  (∀ i, is_Some (int2char (build_vocabulary order) !! i)
        ↔ (0 ≤ i < dict_size (build_vocabulary order))%Z) ∧
  (∀ c, is_Some (char2int (build_vocabulary order) !! c) ↔ c ∈ join text) ∧
  dict_size (build_vocabulary order) = Z.of_nat (size (chars_of text)).
Proof.
  intros Hord. pose proof Hord as [Hnd _].
  split_and!.
  - intros c Hc%(iteration_order_elem_of _ _ _ Hord).
    apply (char2int_is_Some _ Hnd) in Hc as [i Hi].
    unfold encode_index, decode.
    rewrite (dict_getitem_Some _ _ _ Hi), bind_Ok.
    apply (char2int_lookup _ Hnd) in Hi. by apply dict_getitem_Some.
  - intros i [c Hc]%(int2char_dense _ Hnd).
    unfold encode_index, decode.
    rewrite (dict_getitem_Some _ _ _ Hc), bind_Ok.
    apply (char2int_lookup _ Hnd) in Hc. by apply dict_getitem_Some.
  - intros c i. by apply char2int_lookup.
  - intros i. by apply int2char_dense.
  - intros c. rewrite <-(iteration_order_elem_of _ _ _ Hord).
    by apply char2int_is_Some.
  - rewrite vocabulary_size by done. f_equal. by apply iteration_order_length.
Qed.

Lemma notebook_order_iteration : iteration_order (chars_of notebook_text) notebook_order.
Proof. compute_done. Defined.

Lemma vocabulary_round_trip_witness :
  (∀ c, c ∈ join notebook_text →
     (encode_index (build_vocabulary notebook_order) c
        ≫= decode (build_vocabulary notebook_order)) = Ok c) ∧
  (∀ i, (0 ≤ i < dict_size (build_vocabulary notebook_order))%Z →
     (decode (build_vocabulary notebook_order) i
        ≫= encode_index (build_vocabulary notebook_order)) = Ok i) ∧
  (∀ c i, char2int (build_vocabulary notebook_order) !! c = Some i
          ↔ int2char (build_vocabulary notebook_order) !! i = Some c) ∧
  (∀ i, is_Some (int2char (build_vocabulary notebook_order) !! i)
        ↔ (0 ≤ i < dict_size (build_vocabulary notebook_order))%Z) ∧
  (∀ c, is_Some (char2int (build_vocabulary notebook_order) !! c)
        ↔ c ∈ join notebook_text) ∧
  dict_size (build_vocabulary notebook_order)
  = Z.of_nat (size (chars_of notebook_text)).
Proof.
  apply (vocabulary_round_trip notebook_text notebook_order).
  apply (bool_decide_unpack _). vm_compute. reflexivity.
Defined.

Example notebook_char2int_ex :
  map_to_list (char2int (build_vocabulary notebook_order))
  ≡ₚ zip (lit "fwudochmevirnayg ") (seqZ 0 17).
Proof. apply (bool_decide_unpack _). vm_compute. reflexivity. Qed.

(** C5, as the code has it. A corpus with no character in it (no string at
    all, or empty strings only) has the empty character set, whose only
    iteration order is the empty one, and the vocabulary built from it is
    the empty vocabulary: both dictionaries are empty and [dict_size] is 0.
    Nothing is raised by the build. *)
Theorem build_vocabulary_empty_corpus (text : list str) (order : list ascii) :
  Forall (λ s, s = []) text →
  iteration_order (chars_of text) order →
  order = [] ∧
  build_vocabulary order = {| int2char := ∅; char2int := ∅ |} ∧
  dict_size (build_vocabulary order) = 0%Z.
Proof.
  intros Hempty Hord.
  assert (join text = []) as Hjoin.
  { clear Hord. unfold join. induction Hempty as [|s text' Hs _ IH]; [done |].
    rewrite Hs. exact IH. }
  assert (order = []) as ->.
  { destruct order as [|c order]; [done |].
    assert (c ∈ join text) as Hc
      by (apply (iteration_order_elem_of _ _ _ Hord); left).
    rewrite Hjoin in Hc. by apply elem_of_nil in Hc. }
  done.
Qed.

Lemma build_vocabulary_empty_corpus_witness :
  @nil ascii = [] ∧
  build_vocabulary [] = {| int2char := ∅; char2int := ∅ |} ∧
  dict_size (build_vocabulary []) = 0%Z.
Proof.
  apply (build_vocabulary_empty_corpus [[]; []] []).
  - repeat constructor.
  - apply (bool_decide_unpack _). vm_compute. reflexivity.
Defined.

(** The empty corpus is given a vocabulary, the empty one. *)
Lemma build_vocabulary_empty_counterexample :
  iteration_order (chars_of []) [] ∧
  build_vocabulary [] = {| int2char := ∅; char2int := ∅ |}.
Proof. split; [compute_done | reflexivity]. Qed.

(** ** Padding *)

Lemma pad_while_pad_to (maxlen : Z) (s : str) : pad_while maxlen s = pad_to maxlen s.
Proof.
  funelim (pad_while maxlen s).
  - match goal with IH : pad_while _ _ = pad_to _ _ |- _ => rewrite IH end.
    unfold pad_to, len in *. rewrite length_app. simpl.
    replace (Z.to_nat (maxlen - Z.of_nat (length s)))
      with (S (Z.to_nat (maxlen - Z.of_nat (length s + 1)))) by lia.
    simpl. by rewrite <-app_assoc.
  - unfold pad_to. replace (Z.to_nat (maxlen - len s)) with 0 by lia.
    simpl. by rewrite app_nil_r.
Qed.

Lemma pad_to_long (maxlen : Z) (s : str) : (maxlen ≤ len s)%Z → pad_to maxlen s = s.
Proof.
  intros. unfold pad_to. replace (Z.to_nat (maxlen - len s)) with 0 by lia.
  simpl. by rewrite app_nil_r.
Qed.

Lemma pad_to_length (maxlen : Z) (s : str) :
  (len s ≤ maxlen)%Z → len (pad_to maxlen s) = maxlen.
Proof. unfold pad_to, len. rewrite length_app, length_replicate. lia. Qed.

Lemma insert_middle {A : Type} (l1 l2 : list A) (i : nat) (x y : A) :
  length l1 = i → <[i := y]> (l1 ++ x :: l2) = l1 ++ y :: l2.
Proof. intros <-. by rewrite insert_app_r_alt, Nat.sub_diag by lia. Qed.

Lemma lookup_middle_at {A : Type} (l1 l2 : list A) (i : nat) (x : A) :
  length l1 = i → (l1 ++ x :: l2) !! i = Some x.
Proof. intros <-. by rewrite lookup_app_r, Nat.sub_diag by lia. Qed.

Lemma setitem_nat {A : Type} (l : list A) (j : nat) (x : A) :
  j < length l → setitem l (Z.of_nat j) x = Ok (<[j := x]> l).
Proof. intros. unfold setitem. by rewrite norm_index_nat. Qed.

(** The padding loop never raises: it maps the while loop over the list. *)
Lemma padding_map (text : list str) (maxlen : Z) :
  padding text maxlen = Ok (pad_to maxlen <$> text).
Proof.
  unfold padding, len.
  set (I := λ (i : nat) (t : list str), t = (pad_to maxlen <$> take i text) ++ drop i text).
  destruct (for_range_total I
    (λ i text, s ← getitem text i; setitem text i (pad_while maxlen s))
    (length text) text) as (t & -> & Ht).
  - unfold I. by rewrite take_0, drop_0.
  - intros i t Hi ->.
    destruct (lookup_lt_is_Some_2 text i Hi) as [s Hs].
    assert (length (pad_to maxlen <$> take i text) = i) as Hlen
      by (rewrite length_fmap, length_take_le; lia).
    rewrite (drop_S _ _ _ Hs).
    rewrite (getitem_nat _ i s) by (by apply lookup_middle_at). simpl.
    rewrite setitem_nat by (rewrite length_app, Hlen; simpl; lia).
    eexists. split; [done |]. unfold I.
    rewrite insert_middle by done.
    rewrite (take_S_r _ _ _ Hs), fmap_app, <-app_assoc. simpl.
    by rewrite pad_while_pad_to.
  - unfold I in Ht. by rewrite Ht, take_ge, drop_ge, app_nil_r by lia.
Qed.

(** C4, as the code has it. The padding loop never fails: it returns one
    string per input string; a string shorter than the target length comes
    back filled up with spaces to exactly that length, and a string of the
    target length or longer, a strictly longer one included, comes back
    unchanged. *)
Theorem padding_never_fails (text : list str) (maxlen : Z) :
  ∃ padded,
    padding text maxlen = Ok padded ∧
    length padded = length text ∧
    ∀ i s, text !! i = Some s →
      padded !! i = Some (pad_to maxlen s) ∧
      ((len s < maxlen)%Z → len (pad_to maxlen s) = maxlen) ∧
      ((maxlen ≤ len s)%Z → pad_to maxlen s = s).
Proof.
  exists (pad_to maxlen <$> text). split; [apply padding_map |].
  split; [by rewrite length_fmap |].
  intros i s Hs. split_and!.
  - by rewrite list_lookup_fmap, Hs.
  - intros. apply pad_to_length. lia.
  - apply pad_to_long.
Qed.

(** A string of 14 characters padded to the target length 4 comes back as
    it is: nothing is raised. *)
Lemma padding_longer_string_counterexample :
  padding [lit "good i am fine"] 4 = Ok [lit "good i am fine"].
Proof. reflexivity. Qed.

Example padding_ex :
  padding [lit "hey"; lit "good"; lit ""] 4 = Ok [lit "hey "; lit "good"; lit "    "].
Proof. reflexivity. Qed.

(** ** Input and target sequences *)

Lemma max_by_len_from_spec (l : list str) : ∀ best,
  (len best ≤ len (max_by_len_from best l))%Z ∧
  Forall (λ s, (len s ≤ len (max_by_len_from best l))%Z) l.
Proof.
  induction l as [|s l IH]; intros best; simpl; [split; [lia | constructor] |].
  case_decide.
  - destruct (IH s) as [Hs Hl]. split; [lia |]. by constructor.
  - destruct (IH best) as [Hb Hl]. split; [done |]. constructor; [lia | done].
Qed.

(** On a corpus with a string in it, [maxlen] is the length of a longest string. *)
Lemma maxlen_of_spec (text : list str) :
  text ≠ [] →
  ∃ maxlen, maxlen_of text = Ok maxlen ∧ (0 ≤ maxlen)%Z ∧
            Forall (λ s, (len s ≤ maxlen)%Z) text.
Proof.
  destruct text as [|s l]; [done |]. intros _.
  exists (len (max_by_len_from s l)). split; [done |].
  destruct (max_by_len_from_spec l s) as [Hs Hl].
  split; [unfold len; lia |]. by constructor.
Qed.

Lemma make_sequences_map (text : list str) :
  make_sequences text = Ok (slice_to_m1 <$> text, slice_from_1 <$> text).
Proof.
  unfold make_sequences, len.
  set (I := λ (i : nat) (st : list str * list str),
    st = (slice_to_m1 <$> take i text, slice_from_1 <$> take i text)).
  destruct (for_range_total I
    (λ i '(input_seq, target_seq),
       s ← getitem text i;
       let input_seq := input_seq ++ [slice_to_m1 s] in
       s ← getitem text i;
       let target_seq := target_seq ++ [slice_from_1 s] in
       _ ← getitem input_seq i;
       _ ← getitem target_seq i;
       Ok (input_seq, target_seq))
    (length text) ([], [])) as (st & Hrun & Hst).
  - done.
  - intros i st Hi ->.
    destruct (lookup_lt_is_Some_2 text i Hi) as [s Hs].
    rewrite (getitem_nat _ _ _ Hs). simpl.
    rewrite (getitem_nat ((slice_to_m1 <$> take i text) ++ _) i (slice_to_m1 s)), bind_Ok
      by (apply lookup_middle_at; rewrite length_fmap, length_take_le; lia).
    rewrite (getitem_nat ((slice_from_1 <$> take i text) ++ _) i (slice_from_1 s)), bind_Ok
      by (apply lookup_middle_at; rewrite length_fmap, length_take_le; lia).
    eexists. split; [done |]. unfold I.
    by rewrite (take_S_r _ _ _ Hs), !fmap_app.
  - unfold I in Hst. subst st. rewrite take_ge in Hrun by lia. exact Hrun.
Qed.

(** The target is the input moved on by one character. *)
Lemma slices_shifted {A : Type} (s : list A) (i : nat) :
  i + 1 < length (slice_to_m1 s) →
  slice_from_1 s !! i = slice_to_m1 s !! (i + 1) ∧ is_Some (slice_from_1 s !! i).
Proof.
  unfold slice_to_m1, slice_from_1. rewrite length_take. intros Hi.
  rewrite lookup_drop, lookup_take_lt by lia.
  split; [f_equal; lia |]. apply lookup_lt_is_Some. lia.
Qed.

Lemma slices_length {A : Type} (s : list A) :
  length (slice_to_m1 s) = length s - 1 ∧ length (slice_from_1 s) = length s - 1.
Proof.
  unfold slice_to_m1, slice_from_1. rewrite length_take, length_drop. lia.
Qed.

(** C6. For every corpus with a sentence in it: the longest length is
    found, the padding returns, and the loop over the padded sentences
    returns one input and one target per sentence; the input is the padded
    sentence without its last character, the target is the padded sentence
    without its first character, [target[i] = input[i + 1]] at every
    position [i] where both exist, and every input and every target of the
    batch has the same length, [maxlen - 1] (0 when the sentences are
    empty). *)
Theorem sequences_shifted_same_length (text : list str) :
  text ≠ [] →
  ∃ maxlen padded input_seq target_seq,
    maxlen_of text = Ok maxlen ∧
    padding text maxlen = Ok padded ∧
    make_sequences padded = Ok (input_seq, target_seq) ∧
    length input_seq = length text ∧ length target_seq = length text ∧
    ∀ n sentence, padded !! n = Some sentence →
      ∃ input target,
        input_seq !! n = Some input ∧ target_seq !! n = Some target ∧
        input = slice_to_m1 sentence ∧ target = slice_from_1 sentence ∧
        length input = Z.to_nat maxlen - 1 ∧
        length target = Z.to_nat maxlen - 1 ∧
        ∀ i, i + 1 < length input →
          target !! i = input !! (i + 1) ∧ is_Some (target !! i).
Proof.
  intros Htext.
  destruct (maxlen_of_spec text Htext) as (maxlen & Hmax & Hpos & Hle).
  exists maxlen, (pad_to maxlen <$> text),
    (slice_to_m1 <$> (pad_to maxlen <$> text)),
    (slice_from_1 <$> (pad_to maxlen <$> text)).
  split; [done |]. split; [apply padding_map |].
  split; [apply make_sequences_map |].
  split; [by rewrite !length_fmap |]. split; [by rewrite !length_fmap |].
  intros n sentence Hn.
  exists (slice_to_m1 sentence), (slice_from_1 sentence).
  split; [by rewrite list_lookup_fmap, Hn |].
  split; [by rewrite list_lookup_fmap, Hn |].
  split; [done |]. split; [done |].
  apply list_lookup_fmap_Some in Hn as (s & -> & Hs).
  assert (length (pad_to maxlen s) = Z.to_nat maxlen) as Hlen.
  { pose proof (proj1 (Forall_lookup _ _) Hle n s Hs) as Hs'. simpl in Hs'.
    pose proof (pad_to_length maxlen s Hs') as Hp. unfold len in Hp. lia. }
  destruct (slices_length (pad_to maxlen s)) as [-> ->]. rewrite Hlen.
  split; [done |]. split; [done |].
  intros i Hi. apply slices_shifted.
  destruct (slices_length (pad_to maxlen s)) as [-> _]. by rewrite Hlen.
Qed.

Lemma sequences_shifted_same_length_witness :
  ∃ maxlen padded input_seq target_seq,
    maxlen_of [lit "hey"; lit "good"] = Ok maxlen ∧
    padding [lit "hey"; lit "good"] maxlen = Ok padded ∧
    make_sequences padded = Ok (input_seq, target_seq) ∧
    length input_seq = length [lit "hey"; lit "good"] ∧
    length target_seq = length [lit "hey"; lit "good"] ∧
    ∀ n sentence, padded !! n = Some sentence →
      ∃ input target,
        input_seq !! n = Some input ∧ target_seq !! n = Some target ∧
        input = slice_to_m1 sentence ∧ target = slice_from_1 sentence ∧
        length input = Z.to_nat maxlen - 1 ∧
        length target = Z.to_nat maxlen - 1 ∧
        ∀ i, i + 1 < length input →
          target !! i = input !! (i + 1) ∧ is_Some (target !! i).
Proof. apply (sequences_shifted_same_length [lit "hey"; lit "good"]). discriminate. Defined.

Example notebook_sequences_ex :
  (maxlen ← maxlen_of notebook_text;
   padded ← padding notebook_text maxlen;
   make_sequences padded)
  = Ok ([lit "hey how are yo"; lit "good i am fine"; lit "have a nice da"],
        [lit "ey how are you"; lit "ood i am fine "; lit "ave a nice day"]).
Proof. reflexivity. Qed.

Example maxlen_of_empty_ex : maxlen_of [] = Raise ValueError.
Proof. reflexivity. Qed.

(** ** Integer encoding and the notebook's shapes *)

Lemma comprehension_Ok {A B : Type} (f : A → result B) (g : A → B) (l : list A) :
  Forall (λ x, f x = Ok (g x)) l → comprehension f l = Ok (g <$> l).
Proof.
  induction 1 as [|x l Hx _ IH]; [done |]. simpl. by rewrite Hx, bind_Ok, IH.
Qed.


Lemma comprehension_codes (v : Vocabulary) (s : str) :
  Forall (λ c, is_Some (char2int v !! c)) s →
  comprehension (dict_getitem (char2int v)) s = Ok (code_of v <$> s).
Proof.
  intros Hs. apply comprehension_Ok. eapply Forall_impl; [exact Hs |].
  intros c [i Hi]. simpl. unfold code_of. rewrite Hi. by apply dict_getitem_Some.
Qed.

Lemma encode_sequences_map (v : Vocabulary) (text input_seq target_seq : list str) :
  length input_seq = length text → length target_seq = length text →
  Forall (Forall (λ c, is_Some (char2int v !! c))) input_seq →
  Forall (Forall (λ c, is_Some (char2int v !! c))) target_seq →
  encode_sequences v text input_seq target_seq
  = Ok (codes_of v <$> input_seq, codes_of v <$> target_seq).
Proof.
  intros Hli Hlt Hi Ht. unfold encode_sequences, len.
  set (I := λ (i : nat) (st : list (list Z) * list (list Z)),
    st = (codes_of v <$> take i input_seq,
          codes_of v <$> take i target_seq)).
  destruct (for_range_total I
    (λ i '(inputs, targets),
       s ← getitem input_seq i;
       input_i ← comprehension (dict_getitem (char2int v)) s;
       s ← getitem target_seq i;
       target_i ← comprehension (dict_getitem (char2int v)) s;
       Ok (inputs ++ [input_i], targets ++ [target_i]))
    (length text) ([], [])) as (st & Hrun & Hst).
  - done.
  - intros i st Hlt' ->.
    destruct (lookup_lt_is_Some_2 input_seq i) as [si Hsi]; [lia |].
    destruct (lookup_lt_is_Some_2 target_seq i) as [ti Hti]; [lia |].
    rewrite (getitem_nat _ _ _ Hsi), bind_Ok.
    rewrite comprehension_codes, bind_Ok
      by (by apply (proj1 (Forall_lookup _ _) Hi i)).
    rewrite (getitem_nat _ _ _ Hti), bind_Ok.
    rewrite comprehension_codes, bind_Ok
      by (by apply (proj1 (Forall_lookup _ _) Ht i)).
    eexists. split; [done |]. unfold I.
    by rewrite (take_S_r _ _ _ Hsi), (take_S_r _ _ _ Hti), !fmap_app.
  - unfold I in Hst. subst st. rewrite !take_ge in Hrun by lia. exact Hrun.
Qed.

Lemma code_of_in_range (order : list ascii) (c : ascii) :
  NoDup order → is_Some (char2int (build_vocabulary order) !! c) →
  in_range (length order) (code_of (build_vocabulary order) c).
Proof.
  intros Hnd [i Hi]. unfold code_of, in_range. rewrite Hi. simpl.
  rewrite <-(vocabulary_size order Hnd). by eapply char2int_in_range.
Qed.

Lemma notebook_maxlen : maxlen_of notebook_text = Ok 15%Z.
Proof. reflexivity. Qed.

Lemma notebook_dict_size (order : list ascii) :
  iteration_order (chars_of notebook_text) order → length order = 17.
Proof. intros ->%iteration_order_length. by vm_compute. Qed.

(** The characters of the padded sentences are characters of the corpus:
    the space used for padding occurs in the sentences. *)
Lemma notebook_padded_chars :
  Forall (Forall (λ c, c ∈ join notebook_text)) (pad_to 15 <$> notebook_text).
Proof. apply (bool_decide_unpack _). by vm_compute. Qed.

Lemma notebook_padded_lengths :
  Forall (λ s, length s = 15) (pad_to 15 <$> notebook_text).
Proof. apply (bool_decide_unpack _). by vm_compute. Qed.

(** C7. For the corpus of the notebook, in whatever order its character
    set is iterated, the preprocessing cells return: the sentences are
    padded to 15 characters, [seq_len] is 14, [batch_size] is 3,
    [dict_size] is 17, and the one-hot tensor made from the input sequences
    has shape (3, 14, 17). *)
Theorem notebook_shapes (order : list ascii) :
  iteration_order (chars_of notebook_text) order →
  ∃ p, preprocess notebook_text order = Ok p ∧
       p_text p = [lit "hey how are you"; lit "good i am fine "; lit "have a nice day"] ∧
       p_maxlen p = 15%Z ∧ p_seq_len p = 14%Z ∧ p_batch_size p = 3%Z ∧
       p_dict_size p = 17%Z ∧
       shape3 (p_input_seq p) 3 14 17.
Proof.
  intros Hord. pose proof Hord as [Hnd _].
  pose proof (notebook_dict_size order Hord) as Hsize.
  assert (∀ c, c ∈ join notebook_text →
               is_Some (char2int (build_vocabulary order) !! c)) as Hvocab.
  { intros c Hc. by apply char2int_is_Some, (iteration_order_elem_of _ _ _ Hord). }
  assert (Forall (Forall (λ c, is_Some (char2int (build_vocabulary order) !! c)))
                 (pad_to 15 <$> notebook_text)) as Hchars.
  { eapply Forall_impl; [apply notebook_padded_chars |].
    intros s Hs. eapply Forall_impl; [exact Hs | exact Hvocab]. }
  unfold preprocess.
  rewrite notebook_maxlen, bind_Ok, padding_map, bind_Ok, make_sequences_map, bind_Ok.
  cbv beta iota.
  rewrite encode_sequences_map, bind_Ok; cycle 1.
  { by rewrite !length_fmap. }
  { by rewrite !length_fmap. }
  { apply Forall_fmap. eapply Forall_impl; [exact Hchars |].
    intros s Hs. by apply Forall_take. }
  { apply Forall_fmap. eapply Forall_impl; [exact Hchars |].
    intros s Hs. by apply Forall_drop. }
  cbv beta iota.
  rewrite (vocabulary_size order Hnd), Hsize.
  change (15 - 1)%Z with (Z.of_nat 14).
  change (len (pad_to 15 <$> notebook_text)) with (Z.of_nat 3).
  pose proof (one_hot_encode_run
    (codes_of (build_vocabulary order) <$> (slice_to_m1 <$> (pad_to 15 <$> notebook_text)))
    17 14 3) as Hrun.
  assert (one_hot_encode
    (codes_of (build_vocabulary order) <$> (slice_to_m1 <$> (pad_to 15 <$> notebook_text)))
    (Z.of_nat 17) (Z.of_nat 14) (Z.of_nat 3) = Ok (encode_row 17 14 <$> take 3
    (codes_of (build_vocabulary order) <$> (slice_to_m1 <$> (pad_to 15 <$> notebook_text)))))
    as Hok.
  { apply one_hot_encode_ok; [by rewrite !length_fmap |].
    apply Forall_take, Forall_fmap, Forall_fmap.
    eapply Forall_impl;
      [apply Forall_and; split; [exact Hchars | exact notebook_padded_lengths] |].
    intros s [Hs Hlen]. simpl. unfold codes_of, slice_to_m1.
    rewrite length_fmap, length_take, Hlen. split; [lia |].
    apply Forall_take, Forall_fmap, Forall_take.
    eapply Forall_impl; [exact Hs |]. intros c Hc. simpl.
    pose proof (code_of_in_range order c Hnd Hc) as Hr.
    unfold in_range, in_wrap_range in *. lia. }
  rewrite Hok in Hrun. rewrite Hok.
  rewrite bind_Ok. eexists. split; [reflexivity |]. simpl.
  split_and!; try reflexivity. apply Hrun.
Qed.

Lemma notebook_shapes_witness :
  ∃ p, preprocess notebook_text notebook_order = Ok p ∧
       p_text p = [lit "hey how are you"; lit "good i am fine "; lit "have a nice day"] ∧
       p_maxlen p = 15%Z ∧ p_seq_len p = 14%Z ∧ p_batch_size p = 3%Z ∧
       p_dict_size p = 17%Z ∧
       shape3 (p_input_seq p) 3 14 17.
Proof.
  apply (notebook_shapes notebook_order).
  apply (bool_decide_unpack _). vm_compute. reflexivity.
Defined.

Example preprocess_empty_corpus_ex : preprocess [] [] = Raise ValueError.
Proof. reflexivity. Qed.

Example preprocess_empty_sentence_ex : preprocess [[]] [] = Raise ValueError.
Proof. reflexivity. Qed.

(** ** [lower] *)




Example lower_ex : lower (lit "Good I am") = lit "good i am".
Proof. reflexivity. Qed.

(** ** [predict] and [sample] *)

Lemma range_to_nat (n : Z) : range n = range (Z.of_nat (Z.to_nat n)).
Proof.
  unfold range. destruct (decide (0 ≤ n)%Z); [by rewrite Z2Nat.id |].
  rewrite (seqZ_nil _ n) by lia. by replace (Z.to_nat n) with 0 by lia.
Qed.

Lemma bind_Ok_r {A : Type} (m : result A) : (m ≫= Ok) = m.
Proof. by destruct m. Qed.

Lemma getitem_m1 {A : Type} (l : list A) :
  l ≠ [] → ∃ x, getitem l (-1) = Ok x ∧ x ∈ l.
Proof.
  intros Hl. destruct (exists_last Hl) as (l' & x & ->). exists x.
  split; [apply getitem_last |]. apply elem_of_app. right. by left.
Qed.

Section SampleProperties.
Context {scalar vec hidden : Type}.
Context (torch_zeros : Z → Z → Z → hidden).
Context (softmax : list scalar → list scalar).
Context (torch_max_index : list scalar → result Z).
Implicit Types (model : Model scalar vec hidden) (v : Vocabulary).

Local Abbreviation predict' := (predict torch_zeros softmax torch_max_index).
Local Abbreviation sample_step' := (sample_step torch_zeros softmax torch_max_index).
Local Abbreviation sample' := (sample torch_zeros softmax torch_max_index).

(** [model.eval()] changes nothing [predict] reads. *)
Lemma predict_eval v model (character : list ascii) :
  predict' v (eval model) character = predict' v model character.
Proof. reflexivity. Qed.

Lemma sample_unfold v model (out_len : Z) (start : str) :
  sample' v model out_len start
  = for_each (range (Z.of_nat (Z.to_nat (out_len - len (lower start)))))
             (sample_step' v model) (lower start).
Proof. unfold sample. by rewrite bind_Ok_r, range_to_nat. Qed.



(** On a non-empty list of characters of the vocabulary, [predict] returns
    a character of the vocabulary. *)
Lemma predict_returns (order : list ascii) model (character : list ascii) :
  NoDup order →
  torch_contract softmax torch_max_index →
  model_contract (build_vocabulary order) model →
  character ≠ [] →
  Forall (in_vocabulary (build_vocabulary order)) character →
  ∃ char h, predict' (build_vocabulary order) model character = Ok (char, h) ∧
            in_vocabulary (build_vocabulary order) char.
Proof.
  intros Hnd [Hsoft Hmax] (Hrnn & Hsteps & Hfc) Hne Hchars.
  set (v := build_vocabulary order) in *.
  set (d := length order). set (n := length character).
  assert (dict_size v = Z.of_nat d) as Hd by (by apply vocabulary_size).
  assert (0 < n) as Hn by (unfold n; destruct character; [done | simpl; lia]).
  assert (0 < d) as Hdpos.
  { destruct character as [|c ?]; [done |].
    apply Forall_cons in Hchars as [Hc _].
    apply (char2int_is_Some order Hnd) in Hc.
    unfold d. destruct order; [by apply elem_of_nil in Hc | simpl; lia]. }
  rewrite Hd, Nat2Z.id in Hrnn, Hfc.
  unfold predict.
  rewrite (comprehension_codes v character Hchars), bind_Ok.
  rewrite Hd. change 1%Z with (Z.of_nat 1).
  assert (length (code_of v <$> character) = n) as Hcodes
    by (by rewrite length_fmap).
  unfold len. rewrite Hcodes.
  rewrite one_hot_encode_ok, bind_Ok; cycle 1.
  { simpl. lia. }
  { simpl. constructor; [|constructor]. split; [lia |].
    apply Forall_take, Forall_fmap. eapply Forall_impl; [exact Hchars |].
    intros c Hc. simpl. pose proof (code_of_in_range order c Hnd Hc) as Hr.
    unfold in_range, in_wrap_range, v, d in *. lia. }
  simpl take. rewrite list_fmap_singleton.
  set (plane := encode_row d n (code_of v <$> character)).
  assert (shape3 [plane] 1 n d) as Hshape.
  { split; [done |]. constructor; [|constructor]. split.
    - unfold plane, encode_row. rewrite length_fmap, length_take. lia.
    - apply Forall_fmap, Forall_forall. intros k _. apply one_hot_length. }
  unfold forward.
  destruct (Hrnn [plane] (init_hidden torch_zeros model (len [plane])) n Hn Hshape)
    as (out & h' & Hout).
  rewrite Hout, bind_Ok. cbv beta iota.
  apply Hsteps in Hout.
  apply Forall2_cons_inv_r in Hout as (o & out' & Ho & ->%Forall2_nil_inv_r & ->).
  simpl concat. rewrite app_nil_r, bind_Ok.
  destruct Hshape as [_ [[Hplane _] _]%Forall_cons].
  destruct (getitem_m1 (fc model <$> o)) as (row & -> & Hrow).
  { intros Hnil%fmap_nil_inv. rewrite Hnil in Ho. simpl in Ho. lia. }
  rewrite bind_Ok.
  apply list_elem_of_fmap in Hrow as (hv & -> & _).
  destruct (Hmax (softmax (fc model hv))) as (k & -> & Hk).
  { intros Hnil. pose proof (Hsoft (fc model hv)) as Hl.
    rewrite Hnil, Hfc in Hl. simpl in Hl. lia. }
  rewrite bind_Ok. unfold len in Hk. rewrite Hsoft, Hfc in Hk.
  destruct (proj2 (int2char_dense order Hnd k)) as [c Hc]; [fold v; lia |].
  fold v in Hc. rewrite (dict_getitem_Some _ _ _ Hc), bind_Ok.
  exists c, h'. split; [done |]. by eapply int2char_encodable.
Qed.


(** With no seed the first iteration raises: the recurrent layer either
    refuses the empty sequence or leaves no row for [out[-1]]. *)
Lemma sample_empty_seed_raises v model (out_len : Z) :
  rnn_keeps_steps model → (0 < out_len)%Z →
  ∃ e, sample' v model out_len [] = Raise e.
Proof.
  intros Hsteps Hlen. rewrite sample_unfold. simpl lower.
  change (len []) with 0%Z. rewrite Z.sub_0_r.
  replace (Z.to_nat out_len) with (S (Z.to_nat out_len - 1)) by lia.
  unfold range. rewrite seqZ_cons by lia. simpl for_each.
  assert (∃ e, sample_step' v model 0 [] = Raise e) as [e ->]; [|by exists e].
  unfold sample_step, predict. simpl comprehension. rewrite bind_Ok.
  change (len []) with (Z.of_nat 0). change 1%Z with (Z.of_nat 1).
  unfold dict_size.
  rewrite one_hot_encode_ok, bind_Ok; [|simpl; lia | repeat constructor].
  simpl take. rewrite list_fmap_singleton. unfold forward.
  destruct (rnn model _ _) as [[out h']|e] eqn:Hout; [|by exists e].
  apply Hsteps in Hout.
  apply Forall2_cons_inv_r in Hout as (o & out' & Ho & ->%Forall2_nil_inv_r & ->).
  destruct o; [|done]. rewrite !bind_Ok. cbv beta iota.
  change (fc model <$> concat [[]]) with (@nil (list scalar)).
  rewrite getitem_nil. by eexists.
Qed.







End SampleProperties.

(** ** The small network meets the contracts *)

Lemma first_max_from_range (l : list Z) : ∀ best best_ind ind,
  (0 ≤ best_ind < ind)%Z →
  (0 ≤ first_max_from best best_ind ind l < ind + len l)%Z.
Proof.
  induction l as [|x l IH]; intros best best_ind ind Hind; simpl.
  - unfold len. simpl. lia.
  - unfold len in *. simpl length. case_decide.
    + specialize (IH x ind (ind + 1)%Z). lia.
    + specialize (IH best best_ind (ind + 1)%Z). lia.
Qed.

Lemma echo_torch_contract : torch_contract (λ row : list Z, row) first_max_index.
Proof.
  split; [done |]. intros [|x l] Hne; [done |].
  eexists. split; [done |].
  pose proof (first_max_from_range l x 0 1) as H. unfold len in *. simpl length. lia.
Qed.

Lemma echo_model_contract (v : Vocabulary) : model_contract v (echo_model (dict_size v)).
Proof.
  split; [|split].
  - intros x h n Hn [_ Hx]. simpl. unfold echo_rnn.
    rewrite decide_True; [by eauto |].
    eapply Forall_impl; [exact Hx |]. intros plane [Hlen _] ->. simpl in Hlen. lia.
  - intros x h out h'. simpl. unfold echo_rnn. case_decide; [|done].
    intros [= <- <-]. by apply Forall_Forall2_diag, Forall_true.
  - intros row. simpl. by rewrite length_resize.
Qed.

Lemma notebook_order_NoDup : NoDup notebook_order.
Proof. apply (bool_decide_unpack _). by vm_compute. Qed.






Example sample_uppercase_seed_ex :
  Forall (λ c, ¬ in_vocabulary (build_vocabulary notebook_order) c) (lit "GOOD") ∧
  Forall (λ c, in_vocabulary (build_vocabulary notebook_order) (lower_char c))
         (lit "GOOD") ∧
  echo_sample (build_vocabulary notebook_order) 8 (lit "GOOD") = Ok (lit "gooddddd").
Proof.
  split; [apply (bool_decide_unpack _); by vm_compute |].
  split; [apply (bool_decide_unpack _); by vm_compute | reflexivity].
Qed.

(** * Further properties of the notebook's code *)

(** ** The longest sentence *)

Lemma max_by_len_from_spec_first (l : list str) : ∀ (pre mid : list str) (best : str),
  Forall (λ t, (len t < len best)%Z) pre →
  Forall (λ t, (len t ≤ len best)%Z) mid →
  ∃ i,
    (pre ++ best :: mid ++ l) !! i = Some (max_by_len_from best l) ∧
    Forall (λ t, (len t ≤ len (max_by_len_from best l))%Z) (pre ++ best :: mid ++ l) ∧
    Forall (λ t, (len t < len (max_by_len_from best l))%Z)
           (take i (pre ++ best :: mid ++ l)).
Proof.
  induction l as [|s l IH]; intros pre mid best Hpre Hmid; simpl.
  - exists (length pre). rewrite app_nil_r. split; [by apply lookup_middle_at |].
    split.
    + apply Forall_app. split; [|by constructor].
      eapply Forall_impl; [exact Hpre |]. simpl. lia.
    + by rewrite take_app_length.
  - case_decide as Hlt.
    + destruct (IH (pre ++ best :: mid) [] s) as (i & Hi & Hle & Hless).
      * apply Forall_app. split; [|constructor; [done |]].
        -- eapply Forall_impl; [exact Hpre |]. simpl. lia.
        -- eapply Forall_impl; [exact Hmid |]. simpl. lia.
      * constructor.
      * simpl in *. rewrite <-app_assoc in Hi, Hle, Hless. simpl in *. by exists i.
    + destruct (IH pre (mid ++ [s]) best Hpre) as (i & Hi & Hle & Hless).
      * apply Forall_app. split; [done |]. constructor; [lia | constructor].
      * rewrite <-app_assoc in Hi, Hle, Hless. simpl in *. by exists i.
Qed.

Lemma max_by_len_first_longest_aux (text : list str) :
  text ≠ [] →
  ∃ i longest,
    max_by_len text = Ok longest ∧
    text !! i = Some longest ∧
    Forall (λ t, (len t ≤ len longest)%Z) text ∧
    Forall (λ t, (len t < len longest)%Z) (take i text).
Proof.
  destruct text as [|s l]; [done |]. intros _.
  destruct (max_by_len_from_spec_first l [] [] s) as (i & Hi & Hle & Hless);
    [constructor.. |].
  exists i, (max_by_len_from s l). by split_and!.
Qed.

(** X1. [max(text, key=len)] on a corpus with a sentence in it returns the
    first sentence of maximal length: no sentence is longer, and every
    sentence before it is strictly shorter; [maxlen] is its length. *)
Theorem max_by_len_first_longest (text : list str) :
  text ≠ [] →
  ∃ i longest,
    max_by_len text = Ok longest ∧
    maxlen_of text = Ok (len longest) ∧
    text !! i = Some longest ∧
    Forall (λ t, (len t ≤ len longest)%Z) text ∧
    Forall (λ t, (len t < len longest)%Z) (take i text).
Proof.
  intros Hne.
  destruct (max_by_len_first_longest_aux text Hne) as (i & longest & Hm & Hi & Hle & Hless).
  exists i, longest. split_and!; try done. unfold maxlen_of. by rewrite Hm.
Qed.

Lemma max_by_len_first_longest_witness :
  ∃ i longest,
    max_by_len [lit "ab"; lit "abcd"; lit "wxyz"; lit "c"] = Ok longest ∧
    maxlen_of [lit "ab"; lit "abcd"; lit "wxyz"; lit "c"] = Ok (len longest) ∧
    [lit "ab"; lit "abcd"; lit "wxyz"; lit "c"] !! i = Some longest ∧
    Forall (λ t, (len t ≤ len longest)%Z) [lit "ab"; lit "abcd"; lit "wxyz"; lit "c"] ∧
    Forall (λ t, (len t < len longest)%Z)
           (take i [lit "ab"; lit "abcd"; lit "wxyz"; lit "c"]).
Proof.
  apply (max_by_len_first_longest [lit "ab"; lit "abcd"; lit "wxyz"; lit "c"]).
  discriminate.
Defined.

Example max_by_len_ex :
  max_by_len [lit "ab"; lit "abcd"; lit "wxyz"; lit "c"] = Ok (lit "abcd").
Proof. reflexivity. Qed.

(** ** Padding to the longest sentence *)

Lemma maxlen_of_bounds (text : list str) (maxlen : Z) :
  maxlen_of text = Ok maxlen →
  text ≠ [] ∧ Forall (λ s, (len s ≤ maxlen)%Z) text ∧
  ∃ longest, longest ∈ text ∧ len longest = maxlen.
Proof.
  intros Hmax. assert (text ≠ []) as Hne by (by intros ->).
  destruct (max_by_len_first_longest_aux text Hne) as (i & longest & Hm & Hi & Hle & _).
  unfold maxlen_of in Hmax. rewrite Hm, bind_Ok in Hmax.
  injection Hmax as <-. split; [done |]. split; [done |].
  exists longest. split; [|done]. by eapply list_elem_of_lookup_2.
Qed.

(** X2. With [maxlen] the length of the longest sentence, the padding loop
    returns one string per sentence; each is the sentence followed by
    spaces only, and each has exactly [maxlen] characters. *)
Theorem padding_to_maxlen (text : list str) (maxlen : Z) :
  maxlen_of text = Ok maxlen →
  ∃ padded,
    padding text maxlen = Ok padded ∧
    length padded = length text ∧
    Forall (λ s, len s = maxlen) padded ∧
    ∀ i s, text !! i = Some s →
      ∃ fill, padded !! i = Some (s ++ fill) ∧ Forall (λ c, c = " "%char) fill.
Proof.
  intros (_ & Hle & _)%maxlen_of_bounds.
  exists (pad_to maxlen <$> text). split; [apply padding_map |].
  split; [by rewrite length_fmap |]. split.
  - apply Forall_fmap. eapply Forall_impl; [exact Hle |].
    intros s Hs. simpl. by apply pad_to_length.
  - intros i s Hs. exists (replicate (Z.to_nat (maxlen - len s)) " "%char).
    split; [by rewrite list_lookup_fmap, Hs |]. by apply Forall_replicate.
Qed.

Lemma padding_to_maxlen_witness :
  ∃ padded,
    padding [lit "hey"; lit "good"; lit ""] 4 = Ok padded ∧
    length padded = length [lit "hey"; lit "good"; lit ""] ∧
    Forall (λ s, len s = 4%Z) padded ∧
    ∀ i s, [lit "hey"; lit "good"; lit ""] !! i = Some s →
      ∃ fill, padded !! i = Some (s ++ fill) ∧ Forall (λ c, c = " "%char) fill.
Proof. apply (padding_to_maxlen [lit "hey"; lit "good"; lit ""] 4). reflexivity. Defined.

Lemma pad_to_idemp (maxlen : Z) (s : str) : pad_to maxlen (pad_to maxlen s) = pad_to maxlen s.
Proof.
  destruct (decide (len s ≤ maxlen)%Z).
  - apply pad_to_long. rewrite pad_to_length; [lia | done].
  - rewrite (pad_to_long maxlen s) by lia. apply pad_to_long. lia.
Qed.

(** X3. Running the padding loop again on its own result changes nothing,
    for any target length. *)
Theorem padding_idempotent (text padded : list str) (maxlen : Z) :
  padding text maxlen = Ok padded → padding padded maxlen = Ok padded.
Proof.
  rewrite !padding_map. intros [= <-]. f_equal.
  rewrite <-list_fmap_compose. apply list_fmap_ext. intros _ s _. apply pad_to_idemp.
Qed.

Lemma padding_idempotent_witness :
  padding [lit "hey "; lit "good i am"; lit "    "] 4
  = Ok [lit "hey "; lit "good i am"; lit "    "].
Proof.
  apply (padding_idempotent [lit "hey"; lit "good i am"; lit ""]
                            [lit "hey "; lit "good i am"; lit "    "] 4).
  reflexivity.
Defined.

(** ** Integer encoding of the sequences *)

Lemma comprehension_dict_Ok_inv `{Countable K} {V : Type} (d : gmap K V)
    (l : list K) (ys : list V) :
  comprehension (dict_getitem d) l = Ok ys → Forall2 (λ k y, d !! k = Some y) l ys.
Proof.
  revert ys. induction l as [|k l IH]; intros ys; simpl.
  - intros [= <-]. constructor.
  - intros (y & Hy & Hrest)%bind_Ok_inv.
    apply bind_Ok_inv in Hrest as (ys' & Hys' & [= <-]).
    constructor; [|by apply IH].
    unfold dict_getitem in Hy. destruct (d !! k); congruence.
Qed.

Lemma comprehension_dict_Raise `{Countable K} {V : Type} (d : gmap K V)
    (l : list K) (e : exn) :
  comprehension (dict_getitem d) l = Raise e → e = KeyError.
Proof.
  induction l as [|k l IH]; simpl; [done |].
  intros [Hk|(y & _ & Hrest)]%bind_Raise_inv.
  - unfold dict_getitem in Hk. destruct (d !! k); congruence.
  - apply bind_Raise_inv in Hrest as [Hrest|(ys & _ & ?)]; [by apply IH | done].
Qed.

Lemma comprehension_in_vocabulary (v : Vocabulary) (s : str) (codes : list Z) :
  comprehension (dict_getitem (char2int v)) s = Ok codes → Forall (in_vocabulary v) s.
Proof.
  intros Hall%comprehension_dict_Ok_inv.
  induction Hall as [|c i s codes Hc _ IH]; constructor; [by exists i | done].
Qed.

(** What a run of the encoding loop tells about the rows it has read. *)
Lemma encode_sequences_run (v : Vocabulary) (text input_seq target_seq : list str) :
  length input_seq = length text → length target_seq = length text →
  match encode_sequences v text input_seq target_seq with
  | Ok _ => Forall (Forall (in_vocabulary v)) input_seq ∧
            Forall (Forall (in_vocabulary v)) target_seq
  | Raise e => e = KeyError
  end.
Proof.
  intros Hli Hlt. unfold encode_sequences, len.
  set (body := λ (i : Z) '((inputs, targets) : list (list Z) * list (list Z)),
       s ← getitem input_seq i;
       input_i ← comprehension (dict_getitem (char2int v)) s;
       s ← getitem target_seq i;
       target_i ← comprehension (dict_getitem (char2int v)) s;
       Ok (inputs ++ [input_i], targets ++ [target_i])).
  pose proof (for_range_inv (λ _ _, True) body (length text) ([], []) I) as Hrun.
  change (for_each (range (Z.of_nat (length text))) _ ([], []))
    with (for_each (range (Z.of_nat (length text))) body ([], [])).
  destruct (for_each _ body _) as [st|e].
  - destruct Hrun as [_ Hall]; [done |].
    assert (∀ j, j < length text →
      (∀ s, input_seq !! j = Some s → Forall (in_vocabulary v) s) ∧
      (∀ s, target_seq !! j = Some s → Forall (in_vocabulary v) s)) as Hrows.
    { intros j Hj. destruct (Hall j Hj) as ([inputs targets] & st2 & _ & Hbody).
      unfold body in Hbody.
      apply bind_Ok_inv in Hbody as (si & Hsi%getitem_nat_Ok & Hbody).
      apply bind_Ok_inv in Hbody as (ci & Hci%comprehension_in_vocabulary & Hbody).
      apply bind_Ok_inv in Hbody as (ti & Hti%getitem_nat_Ok & Hbody).
      apply bind_Ok_inv in Hbody as (di & Hdi%comprehension_in_vocabulary & _).
      split; intros s Hs; congruence. }
    split; apply Forall_lookup; intros j s Hs;
      pose proof (lookup_lt_Some _ _ _ Hs) as Hj;
      (destruct (Hrows j) as [Hin Htg]; [lia | by eauto]).
  - destruct Hrun as (j & [inputs targets] & Hj & _ & Hbody); [done |].
    unfold body in Hbody.
    destruct (lookup_lt_is_Some_2 input_seq j) as [si Hsi]; [lia |].
    destruct (lookup_lt_is_Some_2 target_seq j) as [ti Hti]; [lia |].
    rewrite (getitem_nat _ _ _ Hsi), bind_Ok in Hbody.
    apply bind_Raise_inv in Hbody as [Hbody|(ci & _ & Hbody)];
      [by eapply comprehension_dict_Raise |].
    rewrite (getitem_nat _ _ _ Hti), bind_Ok in Hbody.
    apply bind_Raise_inv in Hbody as [Hbody|(di & _ & Hbody)];
      [by eapply comprehension_dict_Raise | done].
Qed.

(** X4. The loop that turns the input and target sequences into integers
    returns the rows of indices when every character of the sequences is
    in the vocabulary, and raises [KeyError] otherwise; it never
    substitutes an index for a missing character. *)
Theorem encode_sequences_KeyError_iff (v : Vocabulary)
    (text input_seq target_seq : list str) :
  length input_seq = length text → length target_seq = length text →
  (Forall (Forall (in_vocabulary v)) input_seq ∧
   Forall (Forall (in_vocabulary v)) target_seq →
   encode_sequences v text input_seq target_seq
   = Ok (codes_of v <$> input_seq, codes_of v <$> target_seq)) ∧
  (¬ (Forall (Forall (in_vocabulary v)) input_seq ∧
      Forall (Forall (in_vocabulary v)) target_seq) →
   encode_sequences v text input_seq target_seq = Raise KeyError).
Proof.
  intros Hli Hlt. split.
  - intros [Hi Ht]. by apply encode_sequences_map.
  - intros Hnot. pose proof (encode_sequences_run v text input_seq target_seq Hli Hlt) as H.
    destruct (encode_sequences _ _ _ _) as [st|e]; [done | by rewrite H].
Qed.

Lemma encode_sequences_KeyError_iff_witness :
  (Forall (Forall (in_vocabulary (build_vocabulary notebook_order))) [lit "he"; lit "gX"] ∧
   Forall (Forall (in_vocabulary (build_vocabulary notebook_order))) [lit "ey"; lit "Xd"] →
   encode_sequences (build_vocabulary notebook_order) [lit "hey"; lit "gXd"]
                    [lit "he"; lit "gX"] [lit "ey"; lit "Xd"]
   = Ok (codes_of (build_vocabulary notebook_order) <$> [lit "he"; lit "gX"],
         codes_of (build_vocabulary notebook_order) <$> [lit "ey"; lit "Xd"])) ∧
  (¬ (Forall (Forall (in_vocabulary (build_vocabulary notebook_order))) [lit "he"; lit "gX"] ∧
      Forall (Forall (in_vocabulary (build_vocabulary notebook_order))) [lit "ey"; lit "Xd"]) →
   encode_sequences (build_vocabulary notebook_order) [lit "hey"; lit "gXd"]
                    [lit "he"; lit "gX"] [lit "ey"; lit "Xd"]
   = Raise KeyError).
Proof.
  apply (encode_sequences_KeyError_iff (build_vocabulary notebook_order)
           [lit "hey"; lit "gXd"] [lit "he"; lit "gX"] [lit "ey"; lit "Xd"]);
    reflexivity.
Defined.

Example encode_sequences_KeyError_ex :
  encode_sequences (build_vocabulary notebook_order) [lit "hey"; lit "gXd"]
                   [lit "he"; lit "gX"] [lit "ey"; lit "Xd"] = Raise KeyError.
Proof. reflexivity. Qed.

Lemma comprehension_dict_Ok `{Countable K} {V : Type} (d : gmap K V)
    (l : list K) (ys : list V) :
  Forall2 (λ k y, d !! k = Some y) l ys → comprehension (dict_getitem d) l = Ok ys.
Proof.
  induction 1 as [|k y l ys Hk _ IH]; [done |]. simpl.
  by rewrite (dict_getitem_Some _ _ _ Hk), bind_Ok, IH.
Qed.

(** X5. For the vocabulary of any corpus, a string is encoded to a list of
    indices exactly when the list of indices is decoded to the string: what
    [[char2int[c] for c in s]] returns, [[int2char[i] for i in codes]] turns
    back into [s], and conversely. *)
Theorem encode_decode_strings (order : list ascii) (s : str) (codes : list Z) :
  NoDup order →
  comprehension (encode_index (build_vocabulary order)) s = Ok codes
  ↔ comprehension (decode (build_vocabulary order)) codes = Ok s.
Proof.
  intros Hnd. unfold encode_index, decode. split.
  - intros Hall%comprehension_dict_Ok_inv. apply comprehension_dict_Ok.
    apply Forall2_flip. eapply Forall2_impl; [exact Hall |].
    intros c i Hc. by apply char2int_lookup.
  - intros Hall%comprehension_dict_Ok_inv. apply comprehension_dict_Ok.
    apply Forall2_flip. eapply Forall2_impl; [exact Hall |].
    intros i c Hi. by apply char2int_lookup.
Qed.

Lemma encode_decode_strings_witness :
  comprehension (encode_index (build_vocabulary notebook_order)) (lit "good day")
    = Ok [15; 4; 4; 3; 16; 3; 13; 14]%Z
  ↔ comprehension (decode (build_vocabulary notebook_order))
      [15; 4; 4; 3; 16; 3; 13; 14]%Z = Ok (lit "good day").
Proof.
  apply (encode_decode_strings notebook_order).
  apply (bool_decide_unpack _). vm_compute. reflexivity.
Defined.

Example encode_string_ex :
  comprehension (encode_index (build_vocabulary notebook_order)) (lit "good day")
  = Ok [15; 4; 4; 3; 16; 3; 13; 14]%Z.
Proof. reflexivity. Qed.

(** ** The preprocessing cells on any corpus *)

Lemma preprocess_stages (text : list str) (order : list ascii) (maxlen : Z) :
  maxlen_of text = Ok maxlen →
  preprocess text order
  = ('(input_seq, target_seq) ←
       encode_sequences (build_vocabulary order) (pad_to maxlen <$> text)
         (slice_to_m1 <$> (pad_to maxlen <$> text))
         (slice_from_1 <$> (pad_to maxlen <$> text));
     input_seq ← one_hot_encode input_seq (dict_size (build_vocabulary order))
                  (maxlen - 1) (len (pad_to maxlen <$> text));
     Ok {| p_text := pad_to maxlen <$> text; p_maxlen := maxlen;
           p_target_seq := target_seq;
           p_dict_size := dict_size (build_vocabulary order);
           p_seq_len := (maxlen - 1)%Z;
           p_batch_size := len (pad_to maxlen <$> text);
           p_input_seq := input_seq |}).
Proof.
  intros Hmax. unfold preprocess.
  by rewrite Hmax, bind_Ok, padding_map, bind_Ok, make_sequences_map, bind_Ok.
Qed.

Lemma preprocess_no_sentence (order : list ascii) : preprocess [] order = Raise ValueError.
Proof. reflexivity. Qed.

(** A character outside the vocabulary in the sequences: [KeyError]. *)
Lemma preprocess_KeyError (text : list str) (order : list ascii) (maxlen : Z) :
  maxlen_of text = Ok maxlen →
  ¬ sequences_in_vocabulary (build_vocabulary order) text maxlen →
  preprocess text order = Raise KeyError.
Proof.
  intros Hmax Hnot. rewrite (preprocess_stages _ _ _ Hmax).
  pose proof (encode_sequences_run (build_vocabulary order) (pad_to maxlen <$> text)
    (slice_to_m1 <$> (pad_to maxlen <$> text))
    (slice_from_1 <$> (pad_to maxlen <$> text))) as Hrun.
  destruct (encode_sequences _ _ _ _) as [st|e].
  - destruct Hnot. apply Hrun; by rewrite !length_fmap.
  - rewrite Hrun by (by rewrite !length_fmap). done.
Qed.

(** Sentences that are all empty: [seq_len] is -1 and [np.zeros] raises. *)
Lemma preprocess_ValueError (text : list str) (order : list ascii) (maxlen : Z) :
  maxlen_of text = Ok maxlen → (maxlen < 1)%Z →
  sequences_in_vocabulary (build_vocabulary order) text maxlen →
  preprocess text order = Raise ValueError.
Proof.
  intros Hmax Hlt [Hi Ht]. rewrite (preprocess_stages _ _ _ Hmax).
  rewrite encode_sequences_map, bind_Ok by (done || by rewrite !length_fmap).
  cbv beta iota. unfold one_hot_encode, np_zeros3.
  by rewrite decide_True by lia.
Qed.

Lemma padded_sequences_length (text : list str) (maxlen : Z) :
  maxlen_of text = Ok maxlen →
  Forall (λ s, length s = Z.to_nat (maxlen - 1)) (slice_to_m1 <$> (pad_to maxlen <$> text)) ∧
  Forall (λ s, length s = Z.to_nat (maxlen - 1)) (slice_from_1 <$> (pad_to maxlen <$> text)).
Proof.
  intros (_ & Hle & _)%maxlen_of_bounds.
  split; apply Forall_fmap, Forall_fmap; (eapply Forall_impl; [exact Hle |]);
    intros s Hs; simpl in *; pose proof (pad_to_length maxlen s Hs) as Hp;
    destruct (slices_length (pad_to maxlen s)) as [H1 H2]; unfold len in *; lia.
Qed.

(** Otherwise the cells return what [prepared_of] writes out. *)
Lemma preprocess_Ok (text : list str) (order : list ascii) (maxlen : Z) :
  NoDup order →
  maxlen_of text = Ok maxlen → (1 ≤ maxlen)%Z →
  sequences_in_vocabulary (build_vocabulary order) text maxlen →
  preprocess text order = Ok (prepared_of text order maxlen).
Proof.
  intros Hnd Hmax Hge [Hi Ht]. rewrite (preprocess_stages _ _ _ Hmax).
  rewrite encode_sequences_map, bind_Ok by (done || by rewrite !length_fmap).
  cbv beta iota.
  destruct (padded_sequences_length text maxlen Hmax) as [Hlen _].
  rewrite (vocabulary_size order Hnd).
  assert (one_hot_encode
    (codes_of (build_vocabulary order) <$> (slice_to_m1 <$> (pad_to maxlen <$> text)))
    (Z.of_nat (length order)) (maxlen - 1) (len (pad_to maxlen <$> text))
    = Ok (encode_row (length order) (Z.to_nat (maxlen - 1)) <$>
          (codes_of (build_vocabulary order) <$>
           (slice_to_m1 <$> (pad_to maxlen <$> text))))) as ->.
  { rewrite <-(Z2Nat.id (maxlen - 1)) at 1 by lia. unfold len.
    rewrite one_hot_encode_ok; [by rewrite take_ge by (by rewrite !length_fmap) | |].
    { by rewrite !length_fmap. }
    apply Forall_take, Forall_fmap.
    eapply Forall_impl; [apply Forall_and; split; [exact Hi | exact Hlen] |].
    intros s [Hs Hl]. simpl. unfold codes_of. rewrite length_fmap. split; [lia |].
    apply Forall_take, Forall_fmap. eapply Forall_impl; [exact Hs |].
    intros c Hc. simpl. pose proof (code_of_in_range order c Hnd Hc) as Hr.
    unfold in_range, in_wrap_range in *. lia. }
  rewrite bind_Ok. unfold prepared_of. by rewrite (vocabulary_size order Hnd).
Qed.

(** The three outcomes are the only ones. *)
Lemma preprocess_inv (text : list str) (order : list ascii) (p : Prepared) :
  NoDup order → preprocess text order = Ok p →
  ∃ maxlen, maxlen_of text = Ok maxlen ∧ (1 ≤ maxlen)%Z ∧
            sequences_in_vocabulary (build_vocabulary order) text maxlen ∧
            p = prepared_of text order maxlen.
Proof.
  intros Hnd Hp. destruct (maxlen_of text) as [maxlen|e] eqn:Hmax.
  - exists maxlen.
    destruct (decide (sequences_in_vocabulary (build_vocabulary order) text maxlen))
      as [Hin|Hout]; [|by rewrite (preprocess_KeyError _ _ _ Hmax Hout) in Hp].
    destruct (decide (1 ≤ maxlen)%Z) as [Hge|Hlt].
    + rewrite (preprocess_Ok _ _ _ Hnd Hmax Hge Hin) in Hp. by injection Hp as <-.
    + rewrite (preprocess_ValueError _ _ _ Hmax) in Hp by (done || lia). done.
  - unfold preprocess in Hp. by rewrite Hmax in Hp.
Qed.

Lemma elem_of_pad_to (maxlen : Z) (s : str) (c : ascii) :
  c ∈ pad_to maxlen s → c ∈ s ∨ (c = " "%char ∧ (len s < maxlen)%Z).
Proof.
  unfold pad_to. intros [Hc|Hc]%elem_of_app; [by left |]. right.
  split; [by eapply elem_of_replicate_inv |].
  destruct (decide (len s < maxlen)%Z) as [|Hge]; [done |].
  replace (Z.to_nat (maxlen - len s)) with 0 in Hc by (unfold len in *; lia).
  by apply elem_of_nil in Hc.
Qed.

Lemma elem_of_join_sentence (text : list str) (s : str) (c : ascii) :
  s ∈ text → c ∈ s → c ∈ join text.
Proof.
  unfold join. induction 1 as [s text|s t text _ IH]; intros Hc; simpl;
    apply elem_of_app; [by left | right; by apply IH].
Qed.

Lemma encode_rows_shape (rows : list (list Z)) (d s : nat) :
  Forall (λ row, length row = s) rows →
  shape3 (encode_row d s <$> rows) (length rows) s d.
Proof.
  intros Hrows. split; [by rewrite length_fmap |].
  apply Forall_fmap. eapply Forall_impl; [exact Hrows |].
  intros row Hrow. simpl in *. unfold encode_row. split.
  - rewrite length_fmap, length_take. lia.
  - apply Forall_fmap, Forall_forall. intros k _. apply one_hot_length.
Qed.

(** The sequences of a corpus are in its vocabulary as soon as the padding
    adds no character the corpus does not have. *)
Lemma corpus_sequences_in_vocabulary (text : list str) (order : list ascii) (maxlen : Z) :
  iteration_order (chars_of text) order →
  maxlen_of text = Ok maxlen →
  (" "%char ∈ join text ∨ ∀ s t, s ∈ text → t ∈ text → length s = length t) →
  sequences_in_vocabulary (build_vocabulary order) text maxlen.
Proof.
  intros Hord Hmax Hspace. pose proof Hord as [Hnd _].
  destruct (maxlen_of_bounds _ _ Hmax) as (_ & _ & longest & Hlongest & Hlen).
  assert (Forall (Forall (in_vocabulary (build_vocabulary order)))
                 (pad_to maxlen <$> text)) as Hpad.
  { apply Forall_fmap, Forall_forall. intros s Hs. simpl.
    apply Forall_forall. intros c Hc.
    apply char2int_is_Some, (iteration_order_elem_of _ _ _ Hord); [done |].
    apply elem_of_pad_to in Hc as [Hc|[-> Hlt]].
    - by eapply elem_of_join_sentence.
    - destruct Hspace as [Hsp|Hsame]; [done |].
      pose proof (Hsame s longest Hs Hlongest). unfold len in *. lia. }
  split; apply Forall_fmap; (eapply Forall_impl; [exact Hpad |]); intros s Hs; simpl.
  - by apply Forall_take.
  - by apply Forall_drop.
Qed.

(** X6. For every corpus that has a non-empty sentence and whose padding
    adds no new character (the space occurs in the corpus, or all
    sentences have the same length), and for every iteration order of its
    character set, the preprocessing cells return: the text is padded to
    the longest length [maxlen], [batch_size] is the number of sentences,
    [seq_len] is [maxlen - 1], [dict_size] is the number of distinct
    characters, the one-hot tensor has shape
    (batch_size, seq_len, dict_size), and the targets are [batch_size] rows
    of [seq_len] indices of [0, dict_size). *)
Theorem preprocess_returns (text : list str) (order : list ascii) :
  iteration_order (chars_of text) order →
  Exists (λ s, s ≠ []) text →
  (" "%char ∈ join text ∨ ∀ s t, s ∈ text → t ∈ text → length s = length t) →
  ∃ maxlen p,
    maxlen_of text = Ok maxlen ∧
    preprocess text order = Ok p ∧
    p_text p = pad_to maxlen <$> text ∧
    p_batch_size p = len text ∧
    p_seq_len p = (maxlen - 1)%Z ∧
    p_dict_size p = Z.of_nat (size (chars_of text)) ∧
    shape3 (p_input_seq p) (length text) (Z.to_nat (maxlen - 1)) (size (chars_of text)) ∧
    length (p_target_seq p) = length text ∧
    Forall (λ row, length row = Z.to_nat (maxlen - 1) ∧
                   Forall (in_range (size (chars_of text))) row)
           (p_target_seq p).
Proof.
  intros Hord Hex Hspace. pose proof Hord as [Hnd _].
  assert (text ≠ []) as Hne by (intros ->; by apply Exists_nil in Hex).
  destruct (maxlen_of_spec text Hne) as (maxlen & Hmax & _ & Hle).
  assert (1 ≤ maxlen)%Z as Hge.
  { apply Exists_exists in Hex as (s & Hs & Hsne).
    pose proof (proj1 (Forall_forall _ _) Hle s Hs) as Hl. simpl in Hl.
    unfold len in Hl. destruct s; [done | simpl in Hl; lia]. }
  pose proof (corpus_sequences_in_vocabulary _ _ _ Hord Hmax Hspace) as Hin.
  destruct (padded_sequences_length text maxlen Hmax) as [Hli Hlt].
  pose proof (iteration_order_length _ _ Hord) as Hsize.
  exists maxlen, (prepared_of text order maxlen).
  split; [done |]. split; [by apply preprocess_Ok |].
  unfold prepared_of. simpl. rewrite <-Hsize.
  split_and!; try done.
  - unfold len. by rewrite length_fmap.
  - by apply vocabulary_size.
  - replace (length text)
      with (length (codes_of (build_vocabulary order) <$>
                    (slice_to_m1 <$> (pad_to maxlen <$> text))))
      by (by rewrite !length_fmap).
    apply encode_rows_shape, Forall_fmap.
    eapply Forall_impl; [exact Hli |]. intros s Hs. simpl.
    unfold codes_of. by rewrite length_fmap.
  - by rewrite !length_fmap.
  - apply Forall_fmap.
    eapply Forall_impl; [apply Forall_and; split; [exact (proj2 Hin) | exact Hlt] |].
    intros s [Hs Hl]. simpl. unfold codes_of. rewrite length_fmap. split; [done |].
    apply Forall_fmap. eapply Forall_impl; [exact Hs |].
    intros c Hc. by apply code_of_in_range.
Qed.

Lemma preprocess_returns_witness :
  ∃ maxlen p,
    maxlen_of [lit "ab"; lit "b a"] = Ok maxlen ∧
    preprocess [lit "ab"; lit "b a"] (lit "b a") = Ok p ∧
    p_text p = pad_to maxlen <$> [lit "ab"; lit "b a"] ∧
    p_batch_size p = len [lit "ab"; lit "b a"] ∧
    p_seq_len p = (maxlen - 1)%Z ∧
    p_dict_size p = Z.of_nat (size (chars_of [lit "ab"; lit "b a"])) ∧
    shape3 (p_input_seq p) (length [lit "ab"; lit "b a"]) (Z.to_nat (maxlen - 1))
           (size (chars_of [lit "ab"; lit "b a"])) ∧
    length (p_target_seq p) = length [lit "ab"; lit "b a"] ∧
    Forall (λ row, length row = Z.to_nat (maxlen - 1) ∧
                   Forall (in_range (size (chars_of [lit "ab"; lit "b a"]))) row)
           (p_target_seq p).
Proof.
  apply (preprocess_returns [lit "ab"; lit "b a"] (lit "b a")).
  - apply (bool_decide_unpack _). vm_compute. reflexivity.
  - apply (bool_decide_unpack _). vm_compute. reflexivity.
  - left. apply (bool_decide_unpack _). vm_compute. reflexivity.
Defined.

Example preprocess_ex :
  preprocess [lit "ab"; lit "b a"] (lit "b a")
  = Ok {| p_text := [lit "ab "; lit "b a"]; p_maxlen := 3;
          p_target_seq := [[0; 1]; [1; 2]]%Z;
          p_dict_size := 3; p_seq_len := 2; p_batch_size := 2;
          p_input_seq := [[[0; 0; 1]; [1; 0; 0]]; [[1; 0; 0]; [0; 1; 0]]]%Z |}.
Proof. reflexivity. Qed.

(** X7. Whenever the preprocessing cells return, the targets line up with
    the inputs one step ahead: the index stored as target of sentence [i]
    at step [u] is the index whose slot is set in the one-hot slice of
    sentence [i] at step [u + 1]. *)
Theorem preprocess_targets_one_step_ahead (text : list str) (order : list ascii)
    (p : Prepared) (i u : nat) (row : list Z) (k : Z) :
  NoDup order →
  preprocess text order = Ok p →
  p_target_seq p !! i = Some row → row !! u = Some k →
  u + 1 < Z.to_nat (p_seq_len p) →
  ∃ plane, p_input_seq p !! i = Some plane ∧
           plane !! (u + 1) = Some (one_hot (Z.to_nat (p_dict_size p)) k).
Proof.
  intros Hnd (maxlen & Hmax & Hge & _ & ->)%preprocess_inv; [|done].
  unfold prepared_of. simpl. rewrite (vocabulary_size order Hnd), Nat2Z.id.
  intros Hrow Hk Hu.
  apply list_lookup_fmap_Some in Hrow as (tgt & -> & Htgt).
  apply list_lookup_fmap_Some in Htgt as (s & -> & Hs).
  unfold codes_of in Hk. apply list_lookup_fmap_Some in Hk as (c & -> & Hc).
  destruct (padded_sequences_length text maxlen Hmax) as [Hli _].
  pose proof (proj1 (Forall_lookup _ _) Hli i (slice_to_m1 s)) as Hlen. simpl in Hlen.
  rewrite list_lookup_fmap, Hs in Hlen. specialize (Hlen eq_refl).
  destruct (slices_shifted s u) as [Hshift _]; [lia |].
  eexists. split.
  - do 3 rewrite list_lookup_fmap. by rewrite Hs.
  - unfold encode_row, codes_of.
    rewrite list_lookup_fmap, lookup_take_lt, list_lookup_fmap by lia.
    by rewrite <-Hshift, Hc.
Qed.

Lemma preprocess_targets_one_step_ahead_witness :
  ∃ plane,
    p_input_seq (prepared_of [lit "ab"; lit "b a"] (lit "b a") 3) !! 1 = Some plane ∧
    plane !! (0 + 1)
    = Some (one_hot (Z.to_nat (p_dict_size (prepared_of [lit "ab"; lit "b a"] (lit "b a") 3)))
                    1%Z).
Proof.
  apply (preprocess_targets_one_step_ahead [lit "ab"; lit "b a"] (lit "b a")
           (prepared_of [lit "ab"; lit "b a"] (lit "b a") 3) 1 0 [1; 2]%Z 1%Z).
  - apply (bool_decide_unpack _). vm_compute. reflexivity.
  - reflexivity.
  - reflexivity.
  - reflexivity.
  - vm_compute. lia.
Defined.

Lemma pad_to_last_space (maxlen : Z) (s : str) :
  (len s < maxlen)%Z → (2 ≤ maxlen)%Z → " "%char ∈ slice_from_1 (pad_to maxlen s).
Proof.
  intros Hlt Hge. unfold slice_from_1, pad_to, len in *.
  apply list_elem_of_lookup. exists (Z.to_nat maxlen - 2).
  rewrite lookup_drop, lookup_app_r by lia.
  apply lookup_replicate_2. lia.
Qed.

(** X8. The vocabulary is built before the padding. For a corpus without
    a space that has a sentence shorter than another one of at least two
    characters, the padding brings in a space that the vocabulary does not
    have, and the preprocessing cells raise [KeyError] at the integer
    encoding, in whatever order the character set is iterated. *)
Theorem preprocess_KeyError_without_space (text : list str) (order : list ascii)
    (s t : str) :
  iteration_order (chars_of text) order →
  " "%char ∉ join text →
  s ∈ text → t ∈ text → length s < length t → 2 ≤ length t →
  preprocess text order = Raise KeyError.
Proof.
  intros Hord Hspace Hs Ht Hst Ht2. pose proof Hord as [Hnd _].
  assert (text ≠ []) as Hne by (intros ->; by apply elem_of_nil in Hs).
  destruct (maxlen_of_spec text Hne) as (maxlen & Hmax & _ & Hle).
  pose proof (proj1 (Forall_forall _ _) Hle t Ht) as Hlt. simpl in Hlt. unfold len in Hlt.
  apply (preprocess_KeyError _ _ _ Hmax). intros [_ Htargets].
  assert (in_vocabulary (build_vocabulary order) " "%char) as Hin.
  { pose proof (proj1 (Forall_forall _ _) Htargets (slice_from_1 (pad_to maxlen s)))
      as Hrow.
    eapply (proj1 (Forall_forall _ _) (Hrow _)), pad_to_last_space; unfold len; lia. }
  apply Hspace, (iteration_order_elem_of _ _ _ Hord). by apply char2int_is_Some in Hin.
  Unshelve. apply list_elem_of_fmap_2, list_elem_of_fmap_2, Hs.
Qed.

Lemma preprocess_KeyError_without_space_witness :
  preprocess [lit "hey"; lit "you"; lit "hi"] (lit "ehioyu") = Raise KeyError.
Proof.
  apply (preprocess_KeyError_without_space [lit "hey"; lit "you"; lit "hi"]
           (lit "ehioyu") (lit "hi") (lit "hey")).
  - apply (bool_decide_unpack _). vm_compute. reflexivity.
  - apply (bool_decide_unpack _). vm_compute. reflexivity.
  - apply (bool_decide_unpack _). vm_compute. reflexivity.
  - apply (bool_decide_unpack _). vm_compute. reflexivity.
  - simpl. lia.
  - simpl. lia.
Defined.

(** X9. On a corpus with no character in it the preprocessing cells raise
    [ValueError], whatever order they are given: [max] has nothing to pick
    from when there is no sentence, and [seq_len] is -1 when every
    sentence is empty, which [np.zeros] refuses. *)
Theorem preprocess_ValueError_without_characters (text : list str) (order : list ascii) :
  Forall (λ s, s = []) text → preprocess text order = Raise ValueError.
Proof.
  intros Hempty. destruct (maxlen_of text) as [maxlen|e] eqn:Hmax.
  - destruct (maxlen_of_bounds _ _ Hmax) as (_ & _ & longest & Hin & Hlen).
    pose proof (proj1 (Forall_forall _ _) Hempty longest Hin) as Hnil. simpl in Hnil.
    subst longest. change (len []) with 0%Z in Hlen. subst maxlen.
    apply (preprocess_ValueError _ _ _ Hmax); [lia |].
    split; apply Forall_fmap, Forall_fmap; (eapply Forall_impl; [exact Hempty |]);
      intros s ->; simpl; constructor.
  - destruct text as [|s l]; [apply preprocess_no_sentence | done].
Qed.

Lemma preprocess_ValueError_without_characters_witness :
  preprocess [lit ""; lit ""; lit ""] (lit "ab") = Raise ValueError.
Proof.
  apply (preprocess_ValueError_without_characters [lit ""; lit ""; lit ""] (lit "ab")).
  repeat constructor.
Defined.

(** ** One-hot encoding loses nothing *)

Lemma one_hot_inj (d : nat) (k1 k2 : Z) :
  in_range d k1 → in_range d k2 → one_hot d k1 = one_hot d k2 → k1 = k2.
Proof.
  unfold in_range, one_hot, wrap_index. intros H1 H2 Heq.
  rewrite !decide_True in Heq by lia.
  assert (<[Z.to_nat k2 := 1%Z]> (replicate d 0%Z) !! Z.to_nat k1 = Some 1%Z) as Hl.
  { rewrite <-Heq. apply list_lookup_insert_eq. rewrite length_replicate. lia. }
  destruct (decide (Z.to_nat k2 = Z.to_nat k1)) as [|Hne]; [lia |].
  rewrite list_lookup_insert_ne, lookup_replicate_2 in Hl by (done || lia). done.
Qed.

Lemma encode_row_inj (d s : nat) (row1 row2 : list Z) :
  length row1 = s → length row2 = s →
  Forall (in_range d) row1 → Forall (in_range d) row2 →
  encode_row d s row1 = encode_row d s row2 → row1 = row2.
Proof.
  unfold encode_row. intros Hl1 Hl2 H1 H2. rewrite !take_ge by lia. clear Hl1 Hl2.
  revert row2 H2. induction H1 as [|k1 row1 Hk1 _ IH]; intros [|k2 row2] H2 Heq;
    try done.
  apply Forall_cons in H2 as [Hk2 H2]. injection Heq as Hk Hrest.
  f_equal; [by eapply one_hot_inj | by apply IH].
Qed.

(** X10. [one_hot_encode] is injective on index grids: two inputs of
    exactly [batch_size] rows of exactly [seq_len] indices of
    [0, vocab_size) that give the same feature tensor are the same input. *)
Theorem one_hot_encode_injective (sequence1 sequence2 : list (list Z))
    (vocab_size seq_len batch_size : nat) :
  length sequence1 = batch_size → length sequence2 = batch_size →
  Forall (λ row, length row = seq_len ∧ Forall (in_range vocab_size) row) sequence1 →
  Forall (λ row, length row = seq_len ∧ Forall (in_range vocab_size) row) sequence2 →
  one_hot_encode sequence1 (Z.of_nat vocab_size) (Z.of_nat seq_len) (Z.of_nat batch_size)
  = one_hot_encode sequence2 (Z.of_nat vocab_size) (Z.of_nat seq_len) (Z.of_nat batch_size) →
  sequence1 = sequence2.
Proof.
  intros Hb1 Hb2 H1 H2.
  assert (∀ sequence,
    length sequence = batch_size →
    Forall (λ row, length row = seq_len ∧ Forall (in_range vocab_size) row) sequence →
    one_hot_encode sequence (Z.of_nat vocab_size) (Z.of_nat seq_len) (Z.of_nat batch_size)
    = Ok (encode_row vocab_size seq_len <$> sequence)) as Hok.
  { intros sequence Hb Hrows.
    rewrite one_hot_encode_ok; [by rewrite take_ge by lia | lia |].
    rewrite take_ge by lia. eapply Forall_impl; [exact Hrows |].
    intros row [Hl Hr]. simpl. split; [lia |]. apply Forall_take.
    eapply Forall_impl; [exact Hr |]. unfold in_range, in_wrap_range. simpl. lia. }
  rewrite (Hok _ Hb1 H1), (Hok _ Hb2 H2). intros [= Heq]. clear Hok Hb1 Hb2.
  revert sequence2 H2 Heq.
  induction H1 as [|row1 sequence1 [Hl1 Hr1] _ IH]; intros [|row2 sequence2] H2 Heq;
    try done.
  apply Forall_cons in H2 as [[Hl2 Hr2] H2]. injection Heq as Hrow Hrest.
  f_equal; [by eapply encode_row_inj | by apply IH].
Qed.

Lemma one_hot_encode_injective_witness :
  [[2; 0]; [1; 1]]%Z = [[2; 0]; [1; 1]]%Z.
Proof.
  apply (one_hot_encode_injective [[2; 0]; [1; 1]]%Z [[2; 0]; [1; 1]]%Z 3 2 2).
  - reflexivity.
  - reflexivity.
  - unfold in_range. repeat constructor; lia.
  - unfold in_range. repeat constructor; lia.
  - reflexivity.
Defined.

(** ** The forward pass, [predict] and [sample], further *)


Lemma concat_length_steps {A B : Type} (out : list (list A)) (x : list (list B)) (s : nat) :
  Forall2 (λ o steps, length o = length steps) out x →
  Forall (λ steps, length steps = s) x →
  length (concat out) = length x * s.
Proof.
  induction 1 as [|o steps out x Ho _ IH]; intros Hx; [done |].
  apply Forall_cons in Hx as [Hs Hx]. simpl. rewrite length_app, IH by done. lia.
Qed.

Lemma concat_length_uniform {A : Type} (rows : list (list A)) (s : nat) :
  Forall (λ row, length row = s) rows → length (concat rows) = length rows * s.
Proof.
  induction 1 as [|row rows Hrow _ IH]; [done |].
  simpl. rewrite length_app, IH. lia.
Qed.

Section PredictorFurther.
Context {scalar vec hidden : Type}.
Context (torch_zeros : Z → Z → Z → hidden).
Context (softmax : list scalar → list scalar).
Context (torch_max_index : list scalar → result Z).
Implicit Types (model : Model scalar vec hidden) (v : Vocabulary).

Local Abbreviation forward' := (forward torch_zeros).
Local Abbreviation predict' := (predict torch_zeros softmax torch_max_index).
Local Abbreviation sample_step' := (sample_step torch_zeros softmax torch_max_index).
Local Abbreviation sample' := (sample torch_zeros softmax torch_max_index).

Lemma forward_rows_aux model (x : tensor3) (b s d : nat) out h :
  rnn_keeps_steps model → shape3 x b s d →
  forward' model x = Ok (out, h) →
  length out = b * s ∧ Forall (λ row, ∃ hv, row = fc model hv) out.
Proof.
  intros Hsteps [Hb Hx] Hfw. unfold forward in Hfw.
  apply bind_Ok_inv in Hfw as ([o h'] & Hrnn & [= <- <-]).
  apply Hsteps in Hrnn. split.
  - rewrite length_fmap, <-Hb. eapply concat_length_steps; [done |].
    eapply Forall_impl; [exact Hx |]. by intros plane [? _].
  - apply Forall_fmap, Forall_forall. intros hv _. by exists hv.
Qed.

(** X11. When the forward pass returns on a tensor of shape
    (batch, time, width), for a recurrent layer that returns one hidden
    vector per time step, its output matrix has [batch * time] rows, one
    per time step of each batch element, and each row has the width of the
    linear layer's output. *)
Theorem forward_rows model (x : tensor3) (b s d w : nat) out h :
  rnn_keeps_steps model → (∀ hv, length (fc model hv) = w) →
  shape3 x b s d →
  forward' model x = Ok (out, h) →
  length out = b * s ∧ Forall (λ row, length row = w) out.
Proof.
  intros Hsteps Hfc Hx Hfw.
  destruct (forward_rows_aux model x b s d out h Hsteps Hx Hfw) as [Hlen Hrows].
  split; [done |]. eapply Forall_impl; [exact Hrows |]. by intros row [hv ->].
Qed.

(** X12. The rows the forward pass returns on the input tensor the
    preprocessing cells made are as many as the targets flattened, which is
    what the loss of the training loop compares them with. *)
Theorem forward_rows_match_targets model (text : list str) (order : list ascii)
    (p : Prepared) out h :
  NoDup order → rnn_keeps_steps model →
  preprocess text order = Ok p →
  forward' model (p_input_seq p) = Ok (out, h) →
  length out = length (concat (p_target_seq p)).
Proof.
  intros Hnd Hsteps (maxlen & Hmax & Hge & _ & ->)%preprocess_inv Hfw; [|done].
  destruct (padded_sequences_length text maxlen Hmax) as [Hli Hlt].
  unfold prepared_of in *. simpl in *.
  assert (shape3 (encode_row (length order) (Z.to_nat (maxlen - 1)) <$>
                  (codes_of (build_vocabulary order) <$>
                   (slice_to_m1 <$> (pad_to maxlen <$> text))))
                 (length text) (Z.to_nat (maxlen - 1)) (length order)) as Hshape.
  { replace (length text)
      with (length (codes_of (build_vocabulary order) <$>
                    (slice_to_m1 <$> (pad_to maxlen <$> text))))
      by (by rewrite !length_fmap).
    apply encode_rows_shape, Forall_fmap.
    eapply Forall_impl; [exact Hli |]. intros s Hs. simpl.
    unfold codes_of. by rewrite length_fmap. }
  destruct (forward_rows_aux model _ _ _ _ out h Hsteps Hshape Hfw) as [-> _].
  rewrite (concat_length_uniform _ (Z.to_nat (maxlen - 1))); [by rewrite !length_fmap |].
  apply Forall_fmap. eapply Forall_impl; [exact Hlt |]. intros s Hs. simpl.
  unfold codes_of. by rewrite length_fmap.
Qed.

(** X13. [predict] on no character at all raises, for every model whose
    recurrent layer returns one hidden vector per time step: either the
    layer refuses the empty sequence, or [out[-1]] finds no row. *)
Theorem predict_empty_raises v model :
  rnn_keeps_steps model → ∃ e, predict' v model [] = Raise e.
Proof.
  intros Hsteps. unfold predict. simpl comprehension. rewrite bind_Ok.
  change (len []) with (Z.of_nat 0). change 1%Z with (Z.of_nat 1).
  unfold dict_size.
  rewrite one_hot_encode_ok, bind_Ok; [|simpl; lia | repeat constructor].
  simpl take. rewrite list_fmap_singleton. unfold forward.
  destruct (rnn model _ _) as [[out h']|e] eqn:Hout; [|by exists e].
  apply Hsteps in Hout.
  apply Forall2_cons_inv_r in Hout as (o & out' & Ho & ->%Forall2_nil_inv_r & ->).
  destruct o; [|done]. rewrite !bind_Ok. cbv beta iota.
  change (fc model <$> concat [[]]) with (@nil (list scalar)).
  rewrite getitem_nil. by eexists.
Qed.

(** X14. For a model built as in the notebook, [predict] on a non-empty
    list of characters of the vocabulary returns a character of the
    vocabulary: what it returns can be fed to it again. *)
Theorem predict_in_vocabulary (order : list ascii) model (character : list ascii) :
  NoDup order →
  torch_contract softmax torch_max_index →
  model_contract (build_vocabulary order) model →
  character ≠ [] →
  Forall (in_vocabulary (build_vocabulary order)) character →
  ∃ char h, predict' (build_vocabulary order) model character = Ok (char, h) ∧
            in_vocabulary (build_vocabulary order) char ∧
            (encode_index (build_vocabulary order) char
               ≫= decode (build_vocabulary order)) = Ok char.
Proof.
  intros Hnd Htorch Hmodel Hne Hchars.
  destruct (predict_returns torch_zeros softmax torch_max_index order model character
              Hnd Htorch Hmodel Hne Hchars) as (char & h & Hp & [i Hi]).
  exists char, h. split; [done |]. split; [by exists i |].
  unfold encode_index, decode.
  rewrite (dict_getitem_Some _ _ _ Hi), bind_Ok.
  apply (char2int_lookup order Hnd) in Hi.
  by apply dict_getitem_Some.
Qed.



End PredictorFurther.

Lemma notebook_prepared :
  preprocess notebook_text notebook_order
  = Ok (prepared_of notebook_text notebook_order 15).
Proof.
  apply preprocess_Ok; [apply notebook_order_NoDup | done.. |].
  apply (bool_decide_unpack _). by vm_compute.
Qed.

Lemma echo_rnn_keeps_steps (output_size : Z) : rnn_keeps_steps (echo_model output_size).
Proof.
  intros x h out h'. simpl. unfold echo_rnn. case_decide; [|done].
  intros [= <- <-]. by apply Forall_Forall2_diag, Forall_true.
Qed.

Lemma forward_rows_witness :
  length (fc (echo_model 17) <$> concat (p_input_seq (prepared_of notebook_text notebook_order 15)))
  = 3 * 14 ∧
  Forall (λ row, length row = 17)
         (fc (echo_model 17) <$> concat (p_input_seq (prepared_of notebook_text notebook_order 15))).
Proof.
  apply (forward_rows (λ _ _ _, ()) (echo_model 17)
           (p_input_seq (prepared_of notebook_text notebook_order 15)) 3 14 17 17 _ ()).
  - apply echo_rnn_keeps_steps.
  - intros hv. simpl. by rewrite length_resize.
  - apply (bool_decide_unpack _). vm_compute. reflexivity.
  - vm_compute. reflexivity.
Defined.

Lemma forward_rows_match_targets_witness :
  length (fc (echo_model 17) <$> concat (p_input_seq (prepared_of notebook_text notebook_order 15)))
  = length (concat (p_target_seq (prepared_of notebook_text notebook_order 15))).
Proof.
  apply (forward_rows_match_targets (λ _ _ _, ()) (echo_model 17)
           notebook_text notebook_order
           (prepared_of notebook_text notebook_order 15) _ ()).
  - apply (bool_decide_unpack _). vm_compute. reflexivity.
  - apply echo_rnn_keeps_steps.
  - vm_compute. reflexivity.
  - vm_compute. reflexivity.
Defined.

Lemma predict_empty_raises_witness :
  ∃ e, echo_predict (build_vocabulary notebook_order) [] = Raise e.
Proof.
  apply (predict_empty_raises (λ _ _ _, ()) (λ row, row) first_max_index
           (build_vocabulary notebook_order)
           (echo_model (dict_size (build_vocabulary notebook_order)))).
  apply echo_rnn_keeps_steps.
Defined.

Lemma predict_in_vocabulary_witness :
  ∃ char h,
    echo_predict (build_vocabulary notebook_order) (lit "good") = Ok (char, h) ∧
    in_vocabulary (build_vocabulary notebook_order) char ∧
    (encode_index (build_vocabulary notebook_order) char
       ≫= decode (build_vocabulary notebook_order)) = Ok char.
Proof.
  apply (predict_in_vocabulary (λ _ _ _, ()) (λ row, row) first_max_index
           notebook_order (echo_model (dict_size (build_vocabulary notebook_order)))
           (lit "good")).
  - apply (bool_decide_unpack _). vm_compute. reflexivity.
  - apply echo_torch_contract.
  - apply echo_model_contract.
  - discriminate.
  - apply (bool_decide_unpack _). vm_compute. reflexivity.
Defined.


